(** * Scoped object contexts of Winery.js (src/lib/object-context.ts)

    A shallow embedding of [ScopedObjectContextDef] (the per-scope catalog
    with its dependency analysis) and of [ScopedObjectContext] (the resolver
    that creates objects and looks named objects up along the scope chain),
    followed by the properties of the specification, C1 to C10. *)

From Stdlib Require Import ZArith Lia Ascii String.
From stdpp Require Import gmap strings list.

#[local] Open Scope string_scope.
#[local] Open Scope list_scope.
#[local] Set Warnings "-register-all,-clear-no-such-hyp".

(** ** JavaScript values

    Inputs of [create] and raw values of named objects are [any] in the
    source.  They are modelled as finite trees.  Numbers are kept as
    integers: the code under study never computes with them.  The own
    properties of an object are listed in the order of
    [Object.getOwnPropertyNames]; their names are pairwise distinct in a
    JavaScript object, and a lookup takes the first entry of that name.
    The value of a property is data, never a function: an own property
    named like a method of [Object.prototype] ([hasOwnProperty],
    [toString]) hides that method with a value that cannot be called. *)

Inductive JsValue : Type :=
| JsUndefined
| JsNull
| JsBool (b : bool)
| JsNumber (n : Z)
| JsString (s : string)
| JsArray (elems : list JsValue)
| JsObject (props : list (string * JsValue)).

(** [input[key]] on the property list of an object, [None] when
    [input.hasOwnProperty(key)] is false. *)
Fixpoint getProp (key : string) (props : list (string * JsValue)) : option JsValue :=
  match props with
  | [] => None
  | (k, v) :: rest => if String.eqb k key then Some v else getProp key rest
  end.

(** [input.hasOwnProperty(..)] can be called: the object has no own
    property of that name, so the method of [Object.prototype] is found.
    With such a property the call throws a [TypeError], its value not being
    a function. *)
Definition callsHasOwnProperty (props : list (string * JsValue)) : bool :=
  match getProp "hasOwnProperty" props with
  | Some _ => false
  | None => true
  end.

(** ["text" + v] can be evaluated: the conversion of [v] to a primitive
    value does not throw.  A primitive converts.  An object converts through
    [Object.prototype.valueOf], which answers the object itself, and then
    through [toString]: with an own property [toString], which cannot be
    called, no method is left and the conversion throws a [TypeError].  An
    array converts through [Array.prototype.join], which converts every
    element ([null] and [undefined] read as the empty string). *)
Fixpoint printable (v : JsValue) : bool :=
  match v with
  | JsArray elems => forallb printable elems
  | JsObject props =>
      match getProp "toString" props with
      | Some _ => false
      | None => true
      end
  | JsUndefined | JsNull | JsBool _ | JsNumber _ | JsString _ => true
  end.

(** [typeof v === 'string'] *)
Definition isString (v : JsValue) : bool :=
  match v with JsString _ => true | _ => false end.

(** [x != null]: false on [null] and on [undefined]. *)
Definition notNull (v : JsValue) : bool :=
  match v with JsNull | JsUndefined => false | _ => true end.

(** SameValueZero, the equality of [Set] and [Map] keys.  Primitives compare
    by value.  Objects and arrays compare by identity; every node of a value
    tree is an object of its own, so two nodes are never the same key. *)
Definition sameValueZero (a b : JsValue) : bool :=
  match a, b with
  | JsUndefined, JsUndefined => true
  | JsNull, JsNull => true
  | JsBool x, JsBool y => Bool.eqb x y
  | JsNumber x, JsNumber y => Z.eqb x y
  | JsString x, JsString y => String.eqb x y
  | _, _ => false
  end.

(** ** Errors and results *)

Inductive Error : Type :=
| TypeError (what : string)
    (* property access on null or undefined, call of a value that is not a
       function, conversion of an object without [toString] *)
| UnsupportedProtocol (protocolName : string) (input : JsValue)
    (* selectProvider: "Cannot create object, URI protocol '..' is not supported. Input=.." *)
| UnsupportedType (typeTag : JsValue) (input : JsValue)
    (* selectFactory: "Cannot create object, _type '..' is not supported. Input=.." *)
| UnrecognizedType (typeDep : JsValue) (objectName : string)
    (* "Unrecoginized type '..' found in named object '..'." *)
| UnrecognizedProtocol (protocolDep : string) (objectName : string)
    (* "Unrecongized URI protocol '..' found in named object '..'." *)
| UnresolvedDependencies (objectNames : list string)
    (* "Undefined named object or cyclic dependencies found: '..'." *)
| CollaboratorError (what : string).
    (* whatever a builder or a resolver throws *)

Inductive Result (A : Type) : Type :=
| Ok (a : A)
| Err (e : Error).
Arguments Ok {A} a.
Arguments Err {A} e.

(** ** Declarations *)

(** Modelled from the spec: the builder declaration of object-type.ts, a
    file that is not embedded here.  Only its key, [typeName], is read by
    object-context.ts; [typeBody] stands for the rest of the declaration. *)
Record TypeDef : Type := { typeName : string; typeBody : string }.

(** Modelled from the spec: the resolver declaration of object-provider.ts,
    keyed by [protocol]. *)
Record ProviderDef : Type := { protocol : string; providerBody : string }.

(** Modelled from the spec: a parsed reference [<protocol>:<path>]. *)
Record Uri : Type := { uri_protocol : string; uri_path : string }.

(** Modelled from the spec: the dependency set of named-object.ts, three
    [Set<string>] with their [set...Dependency] methods.  A [Set] iterates in
    insertion order, so each one is a duplicate-free list.  The type names
    come from [jsValue['_type']], an [any], hence [JsValue]. *)
Record ObjectContextDependency : Type := {
  typeDependencies : list JsValue;
  protocolDependencies : list string;
  objectDependencies : list string
}.

(** [new ObjectContextDependency()] *)
Definition newDependency : ObjectContextDependency :=
  {| typeDependencies := []; protocolDependencies := []; objectDependencies := [] |}.

(** [Set.prototype.add] *)
Definition setAdd {A} (eqb : A -> A -> bool) (x : A) (s : list A) : list A :=
  if existsb (eqb x) s then s else s ++ [x].

Definition setTypeDependency (dep : ObjectContextDependency) (t : JsValue) :=
  {| typeDependencies := setAdd sameValueZero t (typeDependencies dep);
     protocolDependencies := protocolDependencies dep;
     objectDependencies := objectDependencies dep |}.

Definition setProtocolDependency (dep : ObjectContextDependency) (p : string) :=
  {| typeDependencies := typeDependencies dep;
     protocolDependencies := setAdd String.eqb p (protocolDependencies dep);
     objectDependencies := objectDependencies dep |}.

Definition setObjectDependency (dep : ObjectContextDependency) (o : string) :=
  {| typeDependencies := typeDependencies dep;
     protocolDependencies := protocolDependencies dep;
     objectDependencies := setAdd String.eqb o (objectDependencies dep) |}.

(** Modelled from the spec: a named-value declaration of named-object.ts.
    [dependencies] is undefined until a dependency analysis fills it. *)
Record NamedObjectDef : Type := {
  name : string;
  value : JsValue;
  dependencies : option ObjectContextDependency
}.

(** ** ScopedObjectContextDef

    The class keeps the three declaration arrays and a [Map] from name to
    declaration for each.  The maps are private, built once by the
    constructor from the arrays and never updated, so the embedding computes
    them from the arrays. *)

Inductive ScopedObjectContextDef : Type := MkScopedObjectContextDef {
  _parent : option ScopedObjectContextDef;
  typeDefs : list TypeDef;
  providerDefs : list ProviderDef;
  namedObjectDefs : list NamedObjectDef
}.

(** [for (let def of defs) map.set(key(def), def)]: a later declaration of
    the same name replaces the earlier one. *)
Definition buildMap {A} (key : A -> string) (defs : list A) : gmap string A :=
  foldl (fun m d => <[key d := d]> m) ∅ defs.

Definition _typeNameToDef (d : ScopedObjectContextDef) : gmap string TypeDef :=
  buildMap typeName (typeDefs d).
Definition _protocolNameToDef (d : ScopedObjectContextDef) : gmap string ProviderDef :=
  buildMap protocol (providerDefs d).
Definition _objectNameToDef (d : ScopedObjectContextDef) : gmap string NamedObjectDef :=
  buildMap name (namedObjectDefs d).

(** [Map.prototype.get] on a map whose keys are strings: a key that is not a
    string is never found. *)
Definition mapGet {A} (m : gmap string A) (key : JsValue) : option A :=
  match key with
  | JsString s => m !! s
  | _ => None
  end.

(** [getTypeDef(typeName, maxDepth = 32)].  The argument is declared a
    string, but dependency analysis hands over [jsValue['_type']] as it is. *)
Fixpoint getTypeDef (d : ScopedObjectContextDef) (typeName : JsValue) (maxDepth : Z)
  : option TypeDef :=
  match mapGet (_typeNameToDef d) typeName with
  | Some def => Some def
  | None =>
      if (0 <? maxDepth)%Z then
        match _parent d with
        | Some p => getTypeDef p typeName (maxDepth - 1)
        | None => None
        end
      else None
  end.

(** [getProviderDef(protocolName, maxDepth = 32)] *)
Fixpoint getProviderDef (d : ScopedObjectContextDef) (protocolName : string) (maxDepth : Z)
  : option ProviderDef :=
  match _protocolNameToDef d !! protocolName with
  | Some def => Some def
  | None =>
      if (0 <? maxDepth)%Z then
        match _parent d with
        | Some p => getProviderDef p protocolName (maxDepth - 1)
        | None => None
        end
      else None
  end.

(** [getNamedObjectDef(name, maxDepth = 32)] *)
Fixpoint getNamedObjectDef (d : ScopedObjectContextDef) (objectName : string) (maxDepth : Z)
  : option NamedObjectDef :=
  match _objectNameToDef d !! objectName with
  | Some def => Some def
  | None =>
      if (0 <? maxDepth)%Z then
        match _parent d with
        | Some p => getNamedObjectDef p objectName (maxDepth - 1)
        | None => None
        end
      else None
  end.

(** The budget of a call that leaves [maxDepth] out. *)
Definition defaultMaxDepth : Z := 32.

(** ** A small error monad for the analysis *)

#[global] Instance Result_bind : MBind Result := fun A B k r =>
  match r with
  | Ok a => k a
  | Err e => Err e
  end.

(** [def.dependencies.<member>]: reading a member of [undefined] throws. *)
Definition dependenciesOf (def : NamedObjectDef) : Result ObjectContextDependency :=
  match dependencies def with
  | Some dep => Ok dep
  | None => Err (TypeError "Cannot read property of undefined")
  end.

Definition withDependencies (def : NamedObjectDef) (dep : ObjectContextDependency)
  : NamedObjectDef :=
  {| name := name def; value := value def; dependencies := Some dep |}.

(** ** Materialized named objects and the resolver state *)

(** Modelled from the spec: the materialized named object of
    named-object.ts, [{def, value, scope}] ([built] is its [value]).  A
    JavaScript object has an identity: [get] may hand out the very object an
    ancestor holds, or a new object.  [identity] records the allocation:
    every object literal evaluated takes the next stamp of the store. *)
Record NamedObject : Type := {
  identity : nat;
  def : NamedObjectDef;
  built : JsValue;
  scope : string
}.

(** Modelled from the spec: the named-value catalog of named-object.ts, a
    [Map] from [object.def.name] to the object with [get], [insert] and
    [forEach].  A [Map] iterates in insertion order and [set] on a key it
    holds keeps the place of the key. *)
Abbreviation NamedObjectRegistry := (list NamedObject).

Definition registryGet (registry : NamedObjectRegistry) (objectName : string)
  : option NamedObject :=
  List.find (fun object => String.eqb (name (def object)) objectName) registry.

Fixpoint registryInsert (registry : NamedObjectRegistry) (object : NamedObject)
  : NamedObjectRegistry :=
  match registry with
  | [] => [object]
  | held :: rest =>
      if String.eqb (name (def held)) (name (def object))
      then object :: rest
      else held :: registryInsert rest object
  end.

(** The mutable part of a chain of resolvers: the registry
    ([_namedObjects]) of each scope, the requesting scope first and the root
    last, and the next identity stamp.  A scope without an entry in the list
    has an empty registry. *)
Record Store : Type := {
  nextIdentity : nat;
  registries : list NamedObjectRegistry
}.

(** Modelled from the spec: the builder catalog of object-type.ts,
    [supports(typeName)] and [create(input, context)].  The builder receives
    the requesting resolver as context and may call back into it, so it reads
    and updates the store; it returns a value or throws. *)
Record ObjectFactory : Type := {
  factory_supports : JsValue -> bool;
  factory_create : JsValue -> Store -> Result JsValue * Store
}.

(** Modelled from the spec: the resolver catalog of object-provider.ts,
    [supports(protocol)] and [provide(uri | uris, context)]. *)
Record ObjectProvider : Type := {
  provider_supports : string -> bool;
  provider_provide : Uri + list Uri -> Store -> Result JsValue * Store
}.

(** The immutable fields of a [ScopedObjectContext].  A resolver is given
    as a scope together with the list of its ancestors, parent first: the
    [_parent] of the class is the head of that list, and [_namedObjects] is
    the registry of the scope in the store. *)
Record ScopedObjectContext : Type := {
  _scope : string;
  _baseDir : string;
  _def : ScopedObjectContextDef;
  _objectFactory : option ObjectFactory;
  _objectProvider : option ObjectProvider
}.

Section ObjectContext.

(** [Uri.tryParse] of object-provider.ts is taken as a parameter, the
    file not being embedded here: [Some uri] stands for
    [{success: true, uri}], [None] for [{success: false}].  It is declared on
    strings; [create] hands it every element of an array, whatever it is, so
    its domain here is all values.  By its contract it does not throw. *)
Variable tryParse : JsValue -> option Uri.

(** *** Dependency analysis (enableDependencyAnalysis) *)

(** [analyzeDirectDependencies(dep, jsValue)].  [typeof] is ['object'] on
    objects, on arrays and on [null].  On an array, ['_type'] is undefined
    and the own property names are the indices followed by [length], whose
    value is a number. *)
Fixpoint analyzeDirectDependencies (dep : ObjectContextDependency) (jsValue : JsValue)
  : Result ObjectContextDependency :=
  match jsValue with
  | JsString _ =>
      match tryParse jsValue with
      | Some uri => Ok (setProtocolDependency dep (uri_protocol uri))
      | None => Ok dep
      end
  | JsNull => Err (TypeError "Cannot read property '_type' of null")
  | JsArray elems =>
      (fix eachElem (dep : ObjectContextDependency) (elems : list JsValue) :=
         match elems with
         | [] => Ok dep
         | v :: rest =>
             match analyzeDirectDependencies dep v with
             | Ok dep' => eachElem dep' rest
             | Err e => Err e
             end
         end) dep elems
  | JsObject props =>
      let dep1 :=
        match getProp "_type" props with
        | Some typeName => if notNull typeName then setTypeDependency dep typeName else dep
        | None => dep
        end in
      (fix eachProp (dep : ObjectContextDependency) (props : list (string * JsValue)) :=
         match props with
         | [] => Ok dep
         | (_, v) :: rest =>
             match analyzeDirectDependencies dep v with
             | Ok dep' => eachProp dep' rest
             | Err e => Err e
             end
         end) dep1 props
  | JsUndefined | JsBool _ | JsNumber _ => Ok dep
  end.

(** [throw new Error("Unrecoginized type '" + typeDep + "' found in named
    object '" + def.name + "'.")]: the message is built first, and building
    it throws a [TypeError] when [typeDep] does not convert to a string. *)
Definition unrecognizedType (typeDep : JsValue) (objectName : string) : Error :=
  if printable typeDep then UnrecognizedType typeDep objectName
  else TypeError "Cannot convert object to primitive value".

(** [typeDeps.forEach(typeDep => { if (this.getTypeDef(typeDep) == null) throw .. })] *)
Fixpoint checkTypes (this : ScopedObjectContextDef) (objectName : string)
  (typeDeps : list JsValue) : Result unit :=
  match typeDeps with
  | [] => Ok tt
  | typeDep :: rest =>
      match getTypeDef this typeDep defaultMaxDepth with
      | None => Err (unrecognizedType typeDep objectName)
      | Some _ => checkTypes this objectName rest
      end
  end.

(** [protocolDeps.forEach(protocolDep => { if (this.getProviderDef(protocolDep) == null) throw .. })] *)
Fixpoint checkProtocols (this : ScopedObjectContextDef) (objectName : string)
  (protocolDeps : list string) : Result unit :=
  match protocolDeps with
  | [] => Ok tt
  | protocolDep :: rest =>
      match getProviderDef this protocolDep defaultMaxDepth with
      | None => Err (UnrecognizedProtocol protocolDep objectName)
      | Some _ => checkProtocols this objectName rest
      end
  end.

(** The body of the first loop of [analyzeNamedObjectDependencies] for one
    declaration: fresh dependency set, direct dependencies, type check,
    protocol check. *)
Definition analyzeOne (this : ScopedObjectContextDef) (def : NamedObjectDef)
  : Result NamedObjectDef :=
  dep ← analyzeDirectDependencies newDependency (value def);
  _ ← checkTypes this (name def) (typeDependencies dep);
  _ ← checkProtocols this (name def) (protocolDependencies dep);
  Ok (withDependencies def dep).

(** First pass: the loop over [this._objectDefs]; it stops at the first
    throw. *)
Fixpoint firstPass (this : ScopedObjectContextDef) (defs : list NamedObjectDef)
  : Result (list NamedObjectDef) :=
  match defs with
  | [] => Ok []
  | def :: rest =>
      def' ← analyzeOne this def;
      rest' ← firstPass this rest;
      Ok (def' :: rest')
  end.

(** Second pass.  A record of [toResolve] holds a reference to a declaration
    of [this._objectDefs], which the pass updates in place: the reference is
    the position of the declaration in the array. *)
Record ToResolve : Type := { unresolvedDeps : list string; defRef : nat }.

Record Closure : Type := {
  objectDefs : list NamedObjectDef;          (* this._objectDefs, updated in place *)
  resolved : gmap string (list string);      (* object name -> closure *)
  toResolve : list ToResolve
}.

(** The loop "Create dependencies to resolve". *)
Fixpoint seed (defs : list NamedObjectDef) (i : nat) (resolved : gmap string (list string))
  (toResolve : list ToResolve) : Result (gmap string (list string) * list ToResolve) :=
  match defs with
  | [] => Ok (resolved, toResolve)
  | def :: rest =>
      dep ← dependenciesOf def;
      let objectDeps := objectDependencies dep in
      if negb (Nat.eqb (length objectDeps) 0)
      then seed rest (S i) resolved (toResolve ++ [{| unresolvedDeps := objectDeps; defRef := i |}])
      else seed rest (S i) (<[name def := objectDeps]> resolved) toResolve
  end.

(** [Object.keys(record.unresolvedDeps)].  [Object.keys] lists the own
    enumerable string-keyed properties of its argument.  The argument is a
    [Set]; a [Set] keeps its elements in an internal slot and has no own
    property, so the result is the empty array whatever the set holds. *)
Definition Object_keys (unresolvedDeps : list string) : list string := [].

(** [record.def] *)
Definition deref (defs : list NamedObjectDef) (ref : nat) : Result NamedObjectDef :=
  match defs !! ref with
  | Some def => Ok def
  | None => Err (TypeError "Cannot read property of undefined")
  end.

(** [depClosure.forEach(depName => record.def.dependencies.setObjectDependency(depName))] *)
Definition absorb (defs : list NamedObjectDef) (ref : nat) (depClosure : list string)
  : Result (list NamedObjectDef) :=
  def ← deref defs ref;
  dep ← dependenciesOf def;
  Ok (<[ref := withDependencies def (foldl setObjectDependency dep depClosure)]> defs).

(** [record.unresolvedDeps.delete(dep)] *)
Definition setDelete (x : string) (s : list string) : list string :=
  filter (fun y => negb (String.eqb x y) = true) s.

(** The loop over the keys of one record. *)
Fixpoint eachKey (resolved : gmap string (list string)) (ref : nat)
  (keys : list string) (defs : list NamedObjectDef) (unresolved : list string)
  : Result (list NamedObjectDef * list string) :=
  match keys with
  | [] => Ok (defs, unresolved)
  | dep :: rest =>
      match resolved !! dep with
      | Some depClosure =>
          defs' ← absorb defs ref depClosure;
          eachKey resolved ref rest defs' (setDelete dep unresolved)
      | None => eachKey resolved ref rest defs unresolved
      end
  end.

(** One round: the loop over [toResolve].  The result carries the updated
    declarations, the updated [resolved], [remaining] and
    [resolvedThisRound]. *)
Fixpoint round (records : list ToResolve) (defs : list NamedObjectDef)
  (resolved : gmap string (list string)) (remaining : list ToResolve)
  (resolvedThisRound : nat)
  : Result (list NamedObjectDef * gmap string (list string) * list ToResolve * nat) :=
  match records with
  | [] => Ok (defs, resolved, remaining, resolvedThisRound)
  | record :: rest =>
      let keys := Object_keys (unresolvedDeps record) in
      '(defs1, unresolved1) ← eachKey resolved (defRef record) keys defs (unresolvedDeps record);
      if Nat.eqb (length keys) 0
      then
        def ← deref defs1 (defRef record);
        dep ← dependenciesOf def;
        round rest defs1 (<[name def := objectDependencies dep]> resolved) remaining
              (S resolvedThisRound)
      else
        round rest defs1 resolved
              (remaining ++ [{| unresolvedDeps := unresolved1; defRef := defRef record |}])
              resolvedThisRound
  end.

(** [toResolve.map(obj => obj.def.name)] for the error message. *)
Definition stuckNames (defs : list NamedObjectDef) (records : list ToResolve) : list string :=
  omap (fun record => name <$> (defs !! defRef record)) records.

(** The loop [while (toResolve.length != 0)].  A round that does not throw
    leaves fewer records than it found, so [fuel] rounds are enough when
    [fuel] is the number of records; [None] is the loop cut short. *)
Fixpoint rounds (fuel : nat) (c : Closure) : option (Result (list NamedObjectDef)) :=
  match toResolve c with
  | [] => Some (Ok (objectDefs c))
  | _ :: _ =>
      match fuel with
      | O => None
      | S fuel' =>
          match round (toResolve c) (objectDefs c) (resolved c) [] 0 with
          | Err e => Some (Err e)
          | Ok (defs', resolved', remaining, resolvedThisRound) =>
              if Nat.eqb resolvedThisRound 0
              then Some (Err (UnresolvedDependencies (stuckNames defs' (toResolve c))))
              else rounds fuel' {| objectDefs := defs'; resolved := resolved';
                                   toResolve := remaining |}
          end
      end
  end.

(** Second pass: seeding, then the rounds. *)
Definition secondPass (defs : list NamedObjectDef) : option (Result (list NamedObjectDef)) :=
  match seed defs 0 ∅ [] with
  | Err e => Some (Err e)
  | Ok (resolved0, toResolve0) =>
      rounds (length toResolve0)
             {| objectDefs := defs; resolved := resolved0; toResolve := toResolve0 |}
  end.

(** [analyzeNamedObjectDependencies()], on the definition under
    construction. *)
Definition analyzeNamedObjectDependencies (this : ScopedObjectContextDef)
  : option (Result (list NamedObjectDef)) :=
  match firstPass this (namedObjectDefs this) with
  | Err e => Some (Err e)
  | Ok defs => secondPass defs
  end.

(** [new ScopedObjectContextDef(parentDefinition, typeDefs, providerDefs,
    objectDefs, enableDependencyAnalysis)].  [Some (Ok d)] is the definition
    constructed, [Some (Err e)] the error thrown. *)
Definition newScopedObjectContextDef (parentDefinition : option ScopedObjectContextDef)
  (typeDefs : list TypeDef) (providerDefs : list ProviderDef)
  (objectDefs : list NamedObjectDef) (enableDependencyAnalysis : bool)
  : option (Result ScopedObjectContextDef) :=
  let this := MkScopedObjectContextDef parentDefinition typeDefs providerDefs objectDefs in
  if enableDependencyAnalysis
  then
    match analyzeNamedObjectDependencies this with
    | Some (Ok defs') =>
        Some (Ok (MkScopedObjectContextDef parentDefinition typeDefs providerDefs defs'))
    | Some (Err e) => Some (Err e)
    | None => None
    end
  else Some (Ok this).


(** *** ScopedObjectContext *)

(** [selectProvider(uri, input)]: this scope first, then its ancestors.  The
    callers pass the [uri] of a successful parse, never [null]. *)
Fixpoint providerFor (scopes : list ScopedObjectContext) (uri : Uri) : option ObjectProvider :=
  match scopes with
  | [] => None
  | scope :: rest =>
      match _objectProvider scope with
      | Some provider =>
          if provider_supports provider (uri_protocol uri) then Some provider
          else providerFor rest uri
      | None => providerFor rest uri
      end
  end.

Definition selectProvider (this : ScopedObjectContext) (ancestors : list ScopedObjectContext)
  (uri : Uri) (input : JsValue) : Result ObjectProvider :=
  match providerFor (this :: ancestors) uri with
  | Some provider => Ok provider
  | None => Err (UnsupportedProtocol (uri_protocol uri) input)
  end.

(** [selectFactory(typeName, input)]: the loop over the scopes. *)
Fixpoint factoryFor (scopes : list ScopedObjectContext) (typeName : JsValue) : option ObjectFactory :=
  match scopes with
  | [] => None
  | scope :: rest =>
      match _objectFactory scope with
      | Some factory =>
          if factory_supports factory typeName then Some factory
          else factoryFor rest typeName
      | None => factoryFor rest typeName
      end
  end.

(** [throw new Error("Cannot create object, _type '" + typeName + "' is not
    supported. Input=" + JSON.stringify(input))]: the message is built from
    left to right, and [typeName], an [any] read from the input, throws a
    [TypeError] when it does not convert to a string.  [JSON.stringify] does
    not throw on a finite tree. *)
Definition unsupportedType (typeName : JsValue) (input : JsValue) : Error :=
  if printable typeName then UnsupportedType typeName input
  else TypeError "Cannot convert object to primitive value".

Definition selectFactory (this : ScopedObjectContext) (ancestors : list ScopedObjectContext)
  (typeName : JsValue) (input : JsValue) : Result ObjectFactory :=
  match factoryFor (this :: ancestors) typeName with
  | Some factory => Ok factory
  | None => Err (unsupportedType typeName input)
  end.

(** [input.every(uri => { let ret = Uri.tryParse(uri); if (ret.success)
    uris.push(ret.uri); return ret.success; })]: [None] when an element fails
    to parse ([every] stops there), the parsed references otherwise. *)
Fixpoint everyTryParse (elems : list JsValue) : option (list Uri) :=
  match elems with
  | [] => Some []
  | elem :: rest =>
      match tryParse elem with
      | Some uri =>
          match everyTryParse rest with
          | Some uris => Some (uri :: uris)
          | None => None
          end
      | None => None
      end
  end.

(** [let factory = this.selectFactory(typeName, input); return
    factory.create(input, this);] *)
Definition createTagged (this : ScopedObjectContext) (ancestors : list ScopedObjectContext)
  (typeName : JsValue) (input : JsValue) (st : Store) : Result JsValue * Store :=
  match selectFactory this ancestors typeName input with
  | Ok factory => factory_create factory input st
  | Err e => (Err e, st)
  end.

(** [if (x.hasOwnProperty('_type')) { let typeName = x['_type']; .. }]
    followed by [return input], where [x] is [input] or [input[0]], an
    object with the own properties [props].  The call of [hasOwnProperty]
    comes first; it throws when [x] hides the method. *)
Definition createFromObject (this : ScopedObjectContext) (ancestors : list ScopedObjectContext)
  (props : list (string * JsValue)) (input : JsValue) (st : Store) : Result JsValue * Store :=
  if callsHasOwnProperty props
  then
    match getProp "_type" props with
    | Some typeName => createTagged this ancestors typeName input st
    | None => (Ok input, st)
    end
  else (Err (TypeError "hasOwnProperty is not a function"), st).

(** [create(input)] *)
Definition create (this : ScopedObjectContext) (ancestors : list ScopedObjectContext)
  (input : JsValue) (st : Store) : Result JsValue * Store :=
  match input with
  | JsArray elems =>
      match elems with
      | [] => (Ok input, st)
      | first :: _ =>
          match first with
          | JsString _ =>
              match everyTryParse elems with
              | None => (Ok input, st)
              | Some uris =>
                  match uris with
                  | uri0 :: _ =>
                      match selectProvider this ancestors uri0 input with
                      | Ok provider => provider_provide provider (inr uris) st
                      | Err e => (Err e, st)
                      end
                  | [] => (Ok input, st)
                  end
              end
          | JsNull =>
              (Err (TypeError "Cannot read property 'hasOwnProperty' of null"), st)
          | JsObject props => createFromObject this ancestors props input st
          | JsArray _ | JsUndefined | JsBool _ | JsNumber _ => (Ok input, st)
          end
      end
  | JsString _ =>
      match tryParse input with
      | Some uri =>
          match selectProvider this ancestors uri input with
          | Ok provider => provider_provide provider (inl uri) st
          | Err e => (Err e, st)
          end
      | None => (Ok input, st)
      end
  | JsNull => (Err (TypeError "Cannot read property 'hasOwnProperty' of null"), st)
  | JsObject props => createFromObject this ancestors props input st
  | JsUndefined | JsBool _ | JsNumber _ => (Ok input, st)
  end.

(** One of the three loops of [needsUpdate]: is some dependency declared
    within [depth - 1] hops of this scope's definition? *)
Definition overridden {A B} (lookup : A -> Z -> option B) (deps : list A) (depth : Z) : bool :=
  existsb (fun dep => bool_decide (is_Some (lookup dep (depth - 1)%Z))) deps.

(** [needsUpdate(namedObject, depth)] *)
Definition needsUpdate (this : ScopedObjectContext) (ancestors : list ScopedObjectContext)
  (namedObject : NamedObject) (depth : Z) : Result bool :=
  match ancestors with
  | [] => Ok false
  | _ :: _ =>
      let def := def namedObject in
      let overrides := _def this in
      typeOverride ←
        (if negb (Nat.eqb (length (typeDefs (_def this))) 0)
         then dep ← dependenciesOf def;
              Ok (overridden (getTypeDef overrides) (typeDependencies dep) depth)
         else Ok false);
      if typeOverride : bool then Ok true else
      providerOverride ←
        (if negb (Nat.eqb (length (providerDefs (_def this))) 0)
         then dep ← dependenciesOf def;
              Ok (overridden (getProviderDef overrides) (protocolDependencies dep) depth)
         else Ok false);
      if providerOverride : bool then Ok true else
      if negb (Nat.eqb (length (namedObjectDefs (_def this))) 0)
      then dep ← dependenciesOf def;
           Ok (overridden (getNamedObjectDef overrides) (objectDependencies dep) depth)
      else Ok false
  end.

(** The object literal [{def: .., value: .., scope: ..}] of [get] followed
    by [this._namedObjects.insert(namedObject)]. *)
Definition rebuilt (this : ScopedObjectContext) (found : NamedObject) (v : JsValue)
  (st : Store) : NamedObject :=
  {| identity := nextIdentity st; def := def found; built := v; scope := _scope this |}.

Definition insertLocal (namedObject : NamedObject) (st : Store) : Store :=
  {| nextIdentity := S (nextIdentity st);
     registries := registryInsert (hd [] (registries st)) namedObject :: tl (registries st) |}.

(** The body of [if (namedObject != null) { .. }] in the loop of [get]:
    what becomes of the object found [depth] hops up. *)
Definition inherit (this : ScopedObjectContext) (ancestors : list ScopedObjectContext)
  (namedObject : NamedObject) (depth : nat) (st : Store)
  : Result (option NamedObject) * Store :=
  match needsUpdate this ancestors namedObject (Z.of_nat depth) with
  | Err e => (Err e, st)
  | Ok true =>
      match create this ancestors (value (def namedObject)) st with
      | (Ok v, st') =>
          let namedObject' := rebuilt this namedObject v st' in
          (Ok (Some namedObject'), insertLocal namedObject' st')
      | (Err e, st') => (Err e, st')
      end
  | Ok false => (Ok (Some namedObject), st)
  end.

(** The loop of [get] over the ancestors: [parents] are the scopes still to
    visit, [parentRegistries] their registries, [depth] the number of hops
    from this scope to the first of them. *)
Fixpoint getFromAncestors (this : ScopedObjectContext) (ancestors : list ScopedObjectContext)
  (parents : list ScopedObjectContext) (parentRegistries : list NamedObjectRegistry)
  (depth : nat) (objectName : string) (st : Store) : Result (option NamedObject) * Store :=
  match parents with
  | [] => (Ok None, st)
  | _ :: grandParents =>
      match registryGet (hd [] parentRegistries) objectName with
      | Some namedObject => inherit this ancestors namedObject depth st
      | None =>
          getFromAncestors this ancestors grandParents (tl parentRegistries) (S depth)
                           objectName st
      end
  end.

(** [get(name)]; [Ok None] is the [null] of "not found". *)
Definition get (this : ScopedObjectContext) (ancestors : list ScopedObjectContext)
  (objectName : string) (st : Store) : Result (option NamedObject) * Store :=
  match registryGet (hd [] (registries st)) objectName with
  | Some namedObject => (Ok (Some namedObject), st)
  | None => getFromAncestors this ancestors ancestors (tl (registries st)) 1 objectName st
  end.

(** [forEach(callback)], as the list of the objects handed to [callback], in
    the order of the calls.  First the loop over one registry, then the loop
    over the scopes; [visited] is the set of names seen so far. *)
Fixpoint forEachObject (visited : gset string) (objects : NamedObjectRegistry)
  : gset string * list NamedObject :=
  match objects with
  | [] => (visited, [])
  | object :: rest =>
      if decide (name (def object) ∈ visited)
      then forEachObject visited rest
      else
        let '(visited', calls) := forEachObject ({[name (def object)]} ∪ visited) rest in
        (visited', object :: calls)
  end.

Fixpoint forEachScope (visited : gset string) (scopes : list ScopedObjectContext)
  (scopeRegistries : list NamedObjectRegistry) : list NamedObject :=
  match scopes with
  | [] => []
  | _ :: parents =>
      let '(visited', calls) := forEachObject visited (hd [] scopeRegistries) in
      calls ++ forEachScope visited' parents (tl scopeRegistries)
  end.

Definition forEach (this : ScopedObjectContext) (ancestors : list ScopedObjectContext)
  (st : Store) : list NamedObject :=
  forEachScope ∅ (this :: ancestors) (registries st).

End ObjectContext.

(** * Specification-side definitions *)

(** ** Definition chains, registries of a chain *)

(** The definition, its parent, the parent of its parent, up to the root. *)
Fixpoint defChain (d : ScopedObjectContextDef) : list ScopedObjectContextDef :=
  d :: match _parent d with
       | Some p => defChain p
       | None => []
       end.

(** The definitions a lookup with budget [n] may consult: the definition
    itself and at most [n] ancestors. *)
Definition withinBudget (d : ScopedObjectContextDef) (n : Z) : list ScopedObjectContextDef :=
  take (S (Z.to_nat n)) (defChain d).

(** [r] is what the nearest definition of [ds] that maps the name holds, or
    not-found when none of them maps it; [localGet] is the lookup in the
    mapping of one definition. *)
Definition nearestOf {A} (localGet : ScopedObjectContextDef -> option A)
  (ds : list ScopedObjectContextDef) (r : option A) : Prop :=
  match r with
  | Some decl =>
      exists (i : nat) (d' : ScopedObjectContextDef),
        ds !! i = Some d' /\ localGet d' = Some decl /\
        forall (j : nat) (d'' : ScopedObjectContextDef),
          (j < i)%nat -> ds !! j = Some d'' -> localGet d'' = None
  | None => forall d', d' ∈ ds -> localGet d' = None
  end.

(** The common shape of the three lookups. *)
Fixpoint lookupChain {A} (localGet : ScopedObjectContextDef -> option A)
  (d : ScopedObjectContextDef) (maxDepth : Z) : option A :=
  match localGet d with
  | Some decl => Some decl
  | None =>
      if (0 <? maxDepth)%Z then
        match _parent d with
        | Some p => lookupChain localGet p (maxDepth - 1)
        | None => None
        end
      else None
  end.

Definition namesOf (objects : list NamedObject) : list string :=
  map (fun object => name (def object)) objects.

(** The registries of the scopes of a chain, the nearest scope first. *)
Fixpoint chainRegistries (scopes : list ScopedObjectContext)
  (scopeRegistries : list NamedObjectRegistry) : list NamedObjectRegistry :=
  match scopes with
  | [] => []
  | _ :: parents => hd [] scopeRegistries :: chainRegistries parents (tl scopeRegistries)
  end.

(** The object a name stands for in a chain: the one of the nearest
    registry that holds the name. *)
Fixpoint nearestObject (rs : list NamedObjectRegistry) (objectName : string)
  : option NamedObject :=
  match rs with
  | [] => None
  | r :: rest =>
      match registryGet r objectName with
      | Some object => Some object
      | None => nearestObject rest objectName
      end
  end.

(** The first registry of [rs] that holds the name, with the number of hops
    to it when the first registry is [depth] hops away. *)
Fixpoint firstHit (rs : list NamedObjectRegistry) (objectName : string) (depth : nat)
  : option (nat * NamedObject) :=
  match rs with
  | [] => None
  | r :: rest =>
      match registryGet r objectName with
      | Some object => Some (depth, object)
      | None => firstHit rest objectName (S depth)
      end
  end.

(** The store as the scope [hops] levels up sees it: its own registry
    first. *)
Definition storeView (hops : nat) (st : Store) : Store :=
  {| nextIdentity := nextIdentity st; registries := drop hops (registries st) |}.

(** ** Inputs of [create] *)

(** No scope of the chain has a builder catalog that supports the type, or
    a resolver catalog that supports the protocol. *)
Definition noFactorySupports (scopes : list ScopedObjectContext) (typeTag : JsValue) : Prop :=
  forall scope factory,
    scope ∈ scopes -> _objectFactory scope = Some factory ->
    factory_supports factory typeTag = false.

Definition noProviderSupports (scopes : list ScopedObjectContext) (protocolName : string)
  : Prop :=
  forall scope provider,
    scope ∈ scopes -> _objectProvider scope = Some provider ->
    provider_supports provider protocolName = false.

(** The inputs of [create] that select a builder or a resolver no scope of
    the chain offers, with the error each one calls for: the unsupported
    type or protocol, and the input itself.  The tagged object is one on
    which [hasOwnProperty] can be called and whose tag converts to a string;
    the sequence of references is a sequence of strings. *)
Inductive Unsupported (tryParse : JsValue -> option Uri) (scopes : list ScopedObjectContext)
  : JsValue -> Error -> Prop :=
| unsupported_tagged_object props typeTag :
    getProp "hasOwnProperty" props = None ->
    getProp "_type" props = Some typeTag ->
    printable typeTag = true ->
    noFactorySupports scopes typeTag ->
    Unsupported tryParse scopes (JsObject props) (UnsupportedType typeTag (JsObject props))
| unsupported_reference s uri :
    tryParse (JsString s) = Some uri ->
    noProviderSupports scopes (uri_protocol uri) ->
    Unsupported tryParse scopes (JsString s)
                (UnsupportedProtocol (uri_protocol uri) (JsString s))
| unsupported_tagged_sequence props rest typeTag :
    getProp "hasOwnProperty" props = None ->
    getProp "_type" props = Some typeTag ->
    printable typeTag = true ->
    noFactorySupports scopes typeTag ->
    Unsupported tryParse scopes (JsArray (JsObject props :: rest))
                (UnsupportedType typeTag (JsArray (JsObject props :: rest)))
| unsupported_reference_sequence s rest uri :
    tryParse (JsString s) = Some uri ->
    Forall (fun elem => isString elem = true /\ is_Some (tryParse elem)) rest ->
    noProviderSupports scopes (uri_protocol uri) ->
    Unsupported tryParse scopes (JsArray (JsString s :: rest))
                (UnsupportedProtocol (uri_protocol uri) (JsArray (JsString s :: rest))).

(** The inputs [create] has nothing to construct from: the empty sequence,
    a sequence of strings one of which fails reference parsing, a string
    that fails reference parsing, an object (alone or first in a sequence)
    on which [hasOwnProperty] can be called and that has no [_type] of its
    own, a sequence that starts with a sequence, and the values that are
    neither a string, nor a sequence, nor an object. *)
Inductive PassedThrough (tryParse : JsValue -> option Uri) : JsValue -> Prop :=
| passed_empty_sequence : PassedThrough tryParse (JsArray [])
| passed_unparsed_sequence s rest elem :
    Forall (fun elem => isString elem = true) rest ->
    elem ∈ JsString s :: rest -> tryParse elem = None ->
    PassedThrough tryParse (JsArray (JsString s :: rest))
| passed_unparsed_string s :
    tryParse (JsString s) = None -> PassedThrough tryParse (JsString s)
| passed_untagged_object props :
    getProp "hasOwnProperty" props = None ->
    getProp "_type" props = None -> PassedThrough tryParse (JsObject props)
| passed_untagged_sequence props rest :
    getProp "hasOwnProperty" props = None ->
    getProp "_type" props = None -> PassedThrough tryParse (JsArray (JsObject props :: rest))
| passed_nested_sequence elems rest : PassedThrough tryParse (JsArray (JsArray elems :: rest))
| passed_scalar_sequence first rest :
    first = JsUndefined \/ (exists b, first = JsBool b) \/ (exists n, first = JsNumber n) ->
    PassedThrough tryParse (JsArray (first :: rest))
| passed_undefined : PassedThrough tryParse JsUndefined
| passed_bool b : PassedThrough tryParse (JsBool b)
| passed_number n : PassedThrough tryParse (JsNumber n).

(** ** Overrides *)

(** Some dependency of [deps] is overridden as [needsUpdate] sees it from
    the scope [this] for an object found [depth] hops up: the definition of
    [this] declares entries of the kind of the dependency, and the dependency
    is declared within [depth - 1] hops of that definition. *)
Inductive Overridden (this : ScopedObjectContext) (deps : ObjectContextDependency)
  (depth : nat) : Prop :=
| overridden_type typeDep :
    typeDefs (_def this) <> [] ->
    typeDep ∈ typeDependencies deps ->
    is_Some (getTypeDef (_def this) typeDep (Z.of_nat depth - 1)) ->
    Overridden this deps depth
| overridden_protocol protocolDep :
    providerDefs (_def this) <> [] ->
    protocolDep ∈ protocolDependencies deps ->
    is_Some (getProviderDef (_def this) protocolDep (Z.of_nat depth - 1)) ->
    Overridden this deps depth
| overridden_object objectDep :
    namedObjectDefs (_def this) <> [] ->
    objectDep ∈ objectDependencies deps ->
    is_Some (getNamedObjectDef (_def this) objectDep (Z.of_nat depth - 1)) ->
    Overridden this deps depth.

(** No definition within [depth - 1] hops of the definition of [this]
    declares a dependency of [deps]. *)
Definition NothingOverridden (this : ScopedObjectContext) (deps : ObjectContextDependency)
  (depth : nat) : Prop :=
  forall d', d' ∈ withinBudget (_def this) (Z.of_nat depth - 1) ->
    (forall typeDep, typeDep ∈ typeDependencies deps ->
       mapGet (_typeNameToDef d') typeDep = None) /\
    (forall protocolDep, protocolDep ∈ protocolDependencies deps ->
       _protocolNameToDef d' !! protocolDep = None) /\
    (forall objectDep, objectDep ∈ objectDependencies deps ->
       _objectNameToDef d' !! objectDep = None).

(** The named object with its recorded dependencies replaced. *)
Definition withRecorded (deps : ObjectContextDependency) (object : NamedObject) : NamedObject :=
  {| identity := identity object;
     def := {| name := name (def object); value := value (def object);
               dependencies := (fun _ => deps) <$> dependencies (def object) |};
     built := built object;
     scope := scope object |}.

(** ** What a raw value refers to *)

(** The type tags of the objects of a value tree: the [_type] of every
    object that has one other than [null] or [undefined]. *)
Fixpoint typeTagsIn (v : JsValue) : list JsValue :=
  match v with
  | JsArray elems => flat_map typeTagsIn elems
  | JsObject props =>
      match getProp "_type" props with
      | Some typeTag => if notNull typeTag then [typeTag] else []
      | None => []
      end
      ++ flat_map (fun kv => typeTagsIn kv.2) props
  | _ => []
  end.

Section References.

Variable tryParse : JsValue -> option Uri.

(** The protocols of the references of a value tree: of every string that
    parses as a reference. *)
Fixpoint protocolsIn (v : JsValue) : list string :=
  match v with
  | JsString _ =>
      match tryParse v with
      | Some uri => [uri_protocol uri]
      | None => []
      end
  | JsArray elems => flat_map protocolsIn elems
  | JsObject props => flat_map (fun kv => protocolsIn kv.2) props
  | _ => []
  end.

End References.

(** No [null] anywhere in a value tree. *)
Fixpoint nullFree (v : JsValue) : bool :=
  match v with
  | JsNull => false
  | JsArray elems => forallb nullFree elems
  | JsObject props => forallb (fun kv => nullFree kv.2) props
  | _ => true
  end.

(** The declaration refers to a type no definition of the chain declares,
    or to a protocol no definition declares; [e] is the error that says
    so. *)
Inductive Unrecognized (tryParse : JsValue -> option Uri) (this : ScopedObjectContextDef)
  (def : NamedObjectDef) : Error -> Prop :=
| unrecognized_type typeTag :
    typeTag ∈ typeTagsIn (value def) ->
    getTypeDef this typeTag defaultMaxDepth = None ->
    Unrecognized tryParse this def (UnrecognizedType typeTag (name def))
| unrecognized_protocol protocolName :
    protocolName ∈ protocolsIn tryParse (value def) ->
    getProviderDef this protocolName defaultMaxDepth = None ->
    Unrecognized tryParse this def (UnrecognizedProtocol protocolName (name def)).

(** The error the analysis throws where [e] is called for: the message of
    an unrecognized type is built from the type. *)
Definition thrownFor (e : Error) : Error :=
  match e with
  | UnrecognizedType typeDep objectName => unrecognizedType typeDep objectName
  | _ => e
  end.

(** [dep'] holds what [dep] held and what the value refers to. *)
Definition records (dep dep' : ObjectContextDependency) (types : list JsValue)
  (protocols : list string) : Prop :=
  (forall t, t ∈ typeDependencies dep' <-> t ∈ typeDependencies dep \/ t ∈ types) /\
  (forall p, p ∈ protocolDependencies dep' <->
             p ∈ protocolDependencies dep \/ p ∈ protocols).


Definition analysed (def : NamedObjectDef) : Prop :=
  exists dep, dependencies def = Some dep /\ objectDependencies dep = [].

Definition hasDependencies (def : NamedObjectDef) : Prop := is_Some (dependencies def).

(** * Examples

    ** A chain of three scopes

    The example of the specification: the global scope declares the builder
    [Number] and the named object [base] of that type, the application scope
    declares [Number] again, the request scope declares nothing. *)

(** Modelled from the spec: a reference parser for the examples,
    [<protocol>:<path>] with the protocol before the first colon. *)
Fixpoint splitAtColon (s : string) : option (string * string) :=
  match s with
  | EmptyString => None
  | String c rest =>
      if Ascii.eqb c ":"%char then Some (EmptyString, rest)
      else match splitAtColon rest with
           | Some (before, after) => Some (String c before, after)
           | None => None
           end
  end.

Definition referenceParse (v : JsValue) : option Uri :=
  match v with
  | JsString s =>
      match splitAtColon s with
      | Some (before, after) => Some {| uri_protocol := before; uri_path := after |}
      | None => None
      end
  | _ => None
  end.

(** A builder catalog that supports the type [Number] alone and signs what
    it builds. *)
Definition numberFactory (owner : string) : ObjectFactory :=
  {| factory_supports := fun typeTag => sameValueZero typeTag (JsString "Number");
     factory_create := fun input st =>
       (Ok (JsObject [("builtBy", JsString owner); ("from", input)]), st) |}.

(** The catalogs of a scope that declares no builder, no resolver. *)
Definition emptyFactory : ObjectFactory :=
  {| factory_supports := fun _ => false;
     factory_create := fun _ st => (Err (CollaboratorError "no builder"), st) |}.

Definition emptyProvider : ObjectProvider :=
  {| provider_supports := fun _ => false;
     provider_provide := fun _ st => (Err (CollaboratorError "no resolver"), st) |}.

Definition numberType (owner : string) : TypeDef :=
  {| typeName := "Number"; typeBody := owner |}.

Definition baseValue : JsValue :=
  JsObject [("_type", JsString "Number"); ("value", JsNumber 1)].

Definition baseDecl : NamedObjectDef :=
  {| name := "base"; value := baseValue; dependencies := None |}.

Definition baseDependencies : ObjectContextDependency :=
  {| typeDependencies := [JsString "Number"];
     protocolDependencies := [];
     objectDependencies := [] |}.

Definition globalDef : ScopedObjectContextDef :=
  MkScopedObjectContextDef None [numberType "global"] []
    [withDependencies baseDecl baseDependencies].

Definition applicationDef : ScopedObjectContextDef :=
  MkScopedObjectContextDef (Some globalDef) [numberType "application"] [] [].

Definition requestDef : ScopedObjectContextDef :=
  MkScopedObjectContextDef (Some applicationDef) [] [] [].

Definition globalScope : ScopedObjectContext :=
  {| _scope := "global"; _baseDir := "/"; _def := globalDef;
     _objectFactory := Some (numberFactory "global");
     _objectProvider := Some emptyProvider |}.

Definition applicationScope : ScopedObjectContext :=
  {| _scope := "application"; _baseDir := "/app"; _def := applicationDef;
     _objectFactory := Some (numberFactory "application");
     _objectProvider := Some emptyProvider |}.

Definition requestScope : ScopedObjectContext :=
  {| _scope := "request"; _baseDir := "/app"; _def := requestDef;
     _objectFactory := Some emptyFactory; _objectProvider := Some emptyProvider |}.

(** [base] as the global scope holds it. *)
Definition globalBase : NamedObject :=
  {| identity := 0;
     def := withDependencies baseDecl baseDependencies;
     built := JsObject [("builtBy", JsString "global"); ("from", baseValue)];
     scope := "global" |}.

(** The store of the chain request, application, global before any [get]. *)
Definition store0 : Store :=
  {| nextIdentity := 1; registries := [[]; []; [globalBase]] |}.

(** A scope under the global one that declares a type of its own and
    overrides nothing. *)
Definition tenantDef : ScopedObjectContextDef :=
  MkScopedObjectContextDef (Some globalDef) [{| typeName := "Text"; typeBody := "tenant" |}]
    [] [].

Definition tenantScope : ScopedObjectContext :=
  {| _scope := "tenant"; _baseDir := "/tenant"; _def := tenantDef;
     _objectFactory := Some emptyFactory; _objectProvider := Some emptyProvider |}.

(** [base] as the application scope rebuilds it. *)
Definition applicationBase : NamedObject :=
  {| identity := 1;
     def := withDependencies baseDecl baseDependencies;
     built := JsObject [("builtBy", JsString "application"); ("from", baseValue)];
     scope := "application" |}.

(** A request scope under the application scope that declares a type of
    its own, which [base] does not depend on. *)
Definition textRequestDef : ScopedObjectContextDef :=
  MkScopedObjectContextDef (Some applicationDef)
    [{| typeName := "Text"; typeBody := "request" |}] [] [].

Definition textRequestScope : ScopedObjectContext :=
  {| _scope := "request"; _baseDir := "/app"; _def := textRequestDef;
     _objectFactory := Some emptyFactory; _objectProvider := Some emptyProvider |}.

(** [base] as that request scope rebuilds it. *)
Definition requestBase : NamedObject :=
  {| identity := 1;
     def := withDependencies baseDecl baseDependencies;
     built := JsObject [("builtBy", JsString "application"); ("from", baseValue)];
     scope := "request" |}.

(** ** Declarations that depend on each other *)

Definition dependsOn (objectNames : list string) : ObjectContextDependency :=
  {| typeDependencies := []; protocolDependencies := []; objectDependencies := objectNames |}.

Definition declare (objectName : string) (n : Z) (objectNames : list string) : NamedObjectDef :=
  {| name := objectName; value := JsNumber n; dependencies := Some (dependsOn objectNames) |}.

(** A depends on B and B on A. *)
Definition cyclicDecls : list NamedObjectDef :=
  [declare "A" 1 ["B"]; declare "B" 2 ["A"]].

(** A depends on B, B on C, C on D. *)
Definition chainedDecls : list NamedObjectDef :=
  [declare "A" 1 ["B"]; declare "B" 2 ["C"]; declare "C" 3 ["D"]; declare "D" 4 []].

(** A declaration with a type no one declares and a [null] field. *)
Definition nullFieldDecl : NamedObjectDef :=
  {| name := "a";
     value := JsObject [("_type", JsString "T"); ("x", JsNull)];
     dependencies := None |}.

(** * Further properties: definitions *)

(** The builder catalog a walk from the requesting scope to the root
    settles on: the catalog of the first scope that has one supporting the
    type. *)
Definition nearestFactory (scopes : list ScopedObjectContext) (typeTag : JsValue)
  (factory : ObjectFactory) : Prop :=
  exists (i : nat) (scope : ScopedObjectContext),
    scopes !! i = Some scope /\
    _objectFactory scope = Some factory /\
    factory_supports factory typeTag = true /\
    forall (j : nat) scope' factory',
      (j < i)%nat -> scopes !! j = Some scope' ->
      _objectFactory scope' = Some factory' ->
      factory_supports factory' typeTag = false.

(** The same for the resolver catalogs and a protocol. *)
Definition nearestProvider (scopes : list ScopedObjectContext) (protocolName : string)
  (provider : ObjectProvider) : Prop :=
  exists (i : nat) (scope : ScopedObjectContext),
    scopes !! i = Some scope /\
    _objectProvider scope = Some provider /\
    provider_supports provider protocolName = true /\
    forall (j : nat) scope' provider',
      (j < i)%nat -> scopes !! j = Some scope' ->
      _objectProvider scope' = Some provider' ->
      provider_supports provider' protocolName = false.

(** The builders and resolvers of the chain leave the store as they find
    it: they do not call back into [get]. *)
Definition storePreserving (scopes : list ScopedObjectContext) : Prop :=
  forall scope, scope ∈ scopes ->
    (forall factory, _objectFactory scope = Some factory ->
       forall input st, (factory_create factory input st).2 = st) /\
    (forall provider, _objectProvider scope = Some provider ->
       forall uris st, (provider_provide provider uris st).2 = st).

(** The objects of a list whose name occurs neither in [seen] nor earlier in
    the list. *)
Fixpoint firstOccurrences (seen : list string) (objects : list NamedObject)
  : list NamedObject :=
  match objects with
  | [] => []
  | object :: rest =>
      if decide (name (def object) ∈ seen)
      then firstOccurrences seen rest
      else object :: firstOccurrences (name (def object) :: seen) rest
  end.

(** A resolver catalog for the protocol [file]: it hands back the paths. *)
Definition fileProvider : ObjectProvider :=
  {| provider_supports := fun protocolName => String.eqb protocolName "file";
     provider_provide := fun uris st =>
       (Ok (match uris with
            | inl uri => JsString (uri_path uri)
            | inr uris => JsArray (map (fun uri => JsString (uri_path uri)) uris)
            end), st) |}.

(** A root scope that builds numbers and resolves files. *)
Definition hostScope : ScopedObjectContext :=
  {| _scope := "host"; _baseDir := "/"; _def := globalDef;
     _objectFactory := Some (numberFactory "host");
     _objectProvider := Some fileProvider |}.

(** A named object of the application scope, under a name of its own. *)
Definition declareObject : NamedObject :=
  {| identity := 1; def := declare "limit" 10 []; built := JsNumber 10;
     scope := "application" |}.

(** [base] held by a root scope whose definition was built without
    dependency analysis: its declaration has no dependency set. *)
Definition unanalysedBase : NamedObject :=
  {| identity := 0; def := baseDecl; built := JsNumber 1; scope := "global" |}.

(** The store after the application scope has rebuilt [base]. *)
Definition storeRebuilt : Store :=
  {| nextIdentity := 2; registries := [[applicationBase]; [globalBase]] |}.

(** A definition that declares the type [Number] twice. *)
Definition twiceDef : ScopedObjectContextDef :=
  MkScopedObjectContextDef None [numberType "first"; numberType "second"] [] [].

(** A declaration the first pass accepts: no [null] in its raw value, and
    every type and protocol it refers to is declared. *)
Definition acceptable (tryParse : JsValue -> option Uri) (this : ScopedObjectContextDef)
  (def : NamedObjectDef) : Prop :=
  nullFree (value def) = true /\ forall e, ~ Unrecognized tryParse this def e.

(** The dependency set the analysis leaves on a declaration of the
    definition [d]: the type tags and the protocols of the references of the
    raw value, each of them declared along the chain of [d], and no named
    object. *)
Definition faithfullyRecorded (tryParse : JsValue -> option Uri)
  (d : ScopedObjectContextDef) (def : NamedObjectDef) : Prop :=
  exists dep,
    dependencies def = Some dep /\
    (forall t, t ∈ typeDependencies dep <-> t ∈ typeTagsIn (value def)) /\
    (forall p, p ∈ protocolDependencies dep <-> p ∈ protocolsIn tryParse (value def)) /\
    objectDependencies dep = [] /\
    (forall t, t ∈ typeDependencies dep -> is_Some (getTypeDef d t defaultMaxDepth)) /\
    (forall p, p ∈ protocolDependencies dep ->
       is_Some (getProviderDef d p defaultMaxDepth)).

(** Declarations for the examples of the analysis: one that refers to a
    file, one with a type nothing declares. *)
Definition fileDecl : NamedObjectDef :=
  {| name := "settings"; value := JsObject [("path", JsString "file:settings.json")];
     dependencies := None |}.

Definition strayDecl : NamedObjectDef :=
  {| name := "stray"; value := JsObject [("_type", JsString "Text")];
     dependencies := None |}.

Definition fileProviderDef : ProviderDef :=
  {| protocol := "file"; providerBody := "host" |}.

(** A request scope that declares a named object and nothing else. *)
Definition objectOnlyDef : ScopedObjectContextDef :=
  MkScopedObjectContextDef (Some globalDef) [] []
    [{| name := "limit"; value := JsNumber 5; dependencies := None |}].

Definition objectOnlyScope : ScopedObjectContext :=
  {| _scope := "request"; _baseDir := "/"; _def := objectOnlyDef;
     _objectFactory := Some emptyFactory; _objectProvider := Some emptyProvider |}.

(** * Properties *)

(** ** Definition chains (C8) *)

(** Induction along the [parent] links of a definition. *)
Lemma ScopedObjectContextDef_parent_ind (P : ScopedObjectContextDef -> Prop) :
  (forall d, (forall p, _parent d = Some p -> P p) -> P d) ->
  forall d, P d.
Proof.
  intros step. fix IH 1. intros [parent tds pds ods].
  apply step. simpl. intros p Hp.
  destruct parent as [q|]; [|discriminate].
  injection Hp as <-. apply IH.
Qed.

Lemma getTypeDef_lookupChain d t n :
  getTypeDef d t n = lookupChain (fun d' => mapGet (_typeNameToDef d') t) d n.
Proof.
  revert n. induction d as [d IH] using ScopedObjectContextDef_parent_ind. intros n.
  destruct d as [parent tds pds ods]; simpl in *.
  destruct (mapGet _ t); [reflexivity|].
  destruct (0 <? n)%Z; [|reflexivity].
  destruct parent as [p|]; [|reflexivity]. by apply IH.
Qed.

Lemma getProviderDef_lookupChain d p n :
  getProviderDef d p n = lookupChain (fun d' => _protocolNameToDef d' !! p) d n.
Proof.
  revert n. induction d as [d IH] using ScopedObjectContextDef_parent_ind. intros n.
  destruct d as [parent tds pds ods]; simpl in *.
  destruct (_ !! p); [reflexivity|].
  destruct (0 <? n)%Z; [|reflexivity].
  destruct parent as [q|]; [|reflexivity]. by apply IH.
Qed.

Lemma getNamedObjectDef_lookupChain d o n :
  getNamedObjectDef d o n = lookupChain (fun d' => _objectNameToDef d' !! o) d n.
Proof.
  revert n. induction d as [d IH] using ScopedObjectContextDef_parent_ind. intros n.
  destruct d as [parent tds pds ods]; simpl in *.
  destruct (_ !! o); [reflexivity|].
  destruct (0 <? n)%Z; [|reflexivity].
  destruct parent as [q|]; [|reflexivity]. by apply IH.
Qed.

Lemma withinBudget_exhausted d n :
  (n <= 0)%Z -> withinBudget d n = [d].
Proof.
  intros Hn. unfold withinBudget.
  replace (Z.to_nat n) with 0%nat by lia.
  destruct d as [parent tds pds ods]; simpl. by rewrite take_0.
Qed.

Lemma withinBudget_root d n :
  _parent d = None -> withinBudget d n = [d].
Proof.
  intros Hp. unfold withinBudget.
  destruct d as [parent tds pds ods]; simpl in *. subst parent.
  by rewrite take_nil.
Qed.

Lemma withinBudget_parent d p n :
  (0 < n)%Z -> _parent d = Some p ->
  withinBudget d n = d :: withinBudget p (n - 1).
Proof.
  intros Hn Hp. unfold withinBudget.
  replace (Z.to_nat n) with (S (Z.to_nat (n - 1))) by lia.
  destruct d as [parent tds pds ods]; simpl in *. by subst parent.
Qed.

Lemma nearestOf_here {A} (localGet : ScopedObjectContextDef -> option A) d ds decl :
  localGet d = Some decl -> nearestOf localGet (d :: ds) (Some decl).
Proof.
  intros Hd. exists 0%nat, d. repeat split; [done|]. intros j d'' Hj. lia.
Qed.

Lemma nearestOf_later {A} (localGet : ScopedObjectContextDef -> option A) d ds r :
  localGet d = None -> nearestOf localGet ds r -> nearestOf localGet (d :: ds) r.
Proof.
  intros Hd. destruct r as [decl|]; simpl.
  - intros (i & d' & Hi & Hdecl & Hbefore).
    exists (S i), d'. repeat split; [done..|].
    intros [|j] d'' Hj Hlook; simpl in Hlook.
    + by injection Hlook as <-.
    + apply (Hbefore j); [lia|done].
  - intros Hall d' Hin. apply elem_of_cons in Hin as [->|Hin]; [done|by apply Hall].
Qed.

Lemma lookupChain_nearest {A} (localGet : ScopedObjectContextDef -> option A) d n :
  nearestOf localGet (withinBudget d n) (lookupChain localGet d n).
Proof.
  revert n. induction d as [d IH] using ScopedObjectContextDef_parent_ind. intros n.
  destruct d as [parent tds pds ods] eqn:Ed; simpl lookupChain.
  rewrite <- Ed in *.
  destruct (localGet d) as [decl|] eqn:Hlocal.
  { destruct (withinBudget d n) as [|d0 ds] eqn:Hw.
    - unfold withinBudget in Hw. rewrite Ed in Hw. simpl in Hw. discriminate.
    - assert (d0 = d) as ->.
      { unfold withinBudget in Hw. rewrite Ed in Hw. simpl in Hw. rewrite <- Ed in Hw.
        by injection Hw as ->. }
      by apply nearestOf_here. }
  destruct (0 <? n)%Z eqn:Hn.
  - apply Z.ltb_lt in Hn. destruct parent as [p|].
    + rewrite (withinBudget_parent d p n); [|done|by rewrite Ed].
      apply nearestOf_later; [done|]. apply IH. by rewrite Ed.
    + rewrite withinBudget_root; [|by rewrite Ed].
      intros d' Hin. apply list_elem_of_singleton in Hin as ->. done.
  - apply Z.ltb_ge in Hn. rewrite withinBudget_exhausted; [|done].
    intros d' Hin. apply list_elem_of_singleton in Hin as ->. done.
Qed.

(** C8.  For every definition, name and budget [n], each of [getTypeDef],
    [getProviderDef] and [getNamedObjectDef] returns the declaration held by
    the nearest definition that maps the name among the definition itself
    and its first [n] ancestors (the local mapping first, then the parent
    with budget [n - 1]), and not-found when none of them maps it; a call
    without budget consults at most 32 ancestors. *)
Theorem lookup_returns_nearest_declaration (d : ScopedObjectContextDef) (n : Z) :
  (forall typeName : JsValue,
      nearestOf (fun d' => mapGet (_typeNameToDef d') typeName)
                (withinBudget d n) (getTypeDef d typeName n)) /\
  (forall protocolName : string,
      nearestOf (fun d' => _protocolNameToDef d' !! protocolName)
                (withinBudget d n) (getProviderDef d protocolName n)) /\
  (forall objectName : string,
      nearestOf (fun d' => _objectNameToDef d' !! objectName)
                (withinBudget d n) (getNamedObjectDef d objectName n)) /\
  withinBudget d defaultMaxDepth = take 33 (defChain d).
Proof.
  split; [|split; [|split]].
  - intros t. rewrite getTypeDef_lookupChain. apply lookupChain_nearest.
  - intros p. rewrite getProviderDef_lookupChain. apply lookupChain_nearest.
  - intros o. rewrite getNamedObjectDef_lookupChain. apply lookupChain_nearest.
  - reflexivity.
Qed.

(** The mapping of a definition holds, for a name, the last declaration of
    that name in the array it was built from. *)
Lemma buildMap_lookup {A} (key : A -> string) (defs : list A) (k : string) :
  buildMap key defs !! k = last (filter (fun d => key d = k) defs).
Proof.
  unfold buildMap. induction defs as [|d defs IH] using rev_ind; [done|].
  rewrite foldl_app, filter_app. simpl.
  destruct (decide (key d = k)) as [<-|Hne].
  - rewrite lookup_insert_eq.
    rewrite (filter_cons_True (fun d0 => key d0 = key d) d []) by done.
    by rewrite filter_nil, last_snoc.
  - rewrite lookup_insert_ne by done.
    rewrite (filter_cons_False (fun d0 => key d0 = k) d []) by done.
    by rewrite filter_nil, app_nil_r.
Qed.

(** A definition without declarations of a kind maps no name of that
    kind. *)
Lemma buildMap_declared {A} (key : A -> string) (defs : list A) (k : string) (decl : A) :
  buildMap key defs !! k = Some decl -> decl ∈ defs /\ key decl = k.
Proof.
  rewrite buildMap_lookup. intros Hlast.
  assert (decl ∈ filter (fun d => key d = k) defs) as Hin.
  { destruct (filter (fun d => key d = k) defs) as [|d l] using rev_ind; [done|].
    rewrite last_snoc in Hlast. injection Hlast as ->.
    apply elem_of_app. right. by left. }
  by apply list_elem_of_filter in Hin as [? ?].
Qed.

(** ** Iteration over the chain (C7) *)

Lemma elem_of_concat {A} (x : A) (ls : list (list A)) :
  x ∈ concat ls <-> exists l, l ∈ ls /\ x ∈ l.
Proof.
  induction ls as [|l ls IH]; simpl.
  - split; [intros H; by apply elem_of_nil in H|].
    intros (l & H & _). by apply elem_of_nil in H.
  - rewrite elem_of_app, IH. split.
    + intros [H|(l' & H1 & H2)]; [exists l; split; [by left|done]|].
      exists l'. split; [by right|done].
    + intros (l' & H1 & H2). apply elem_of_cons in H1 as [->|H1]; [by left|].
      right. by exists l'.
Qed.

Lemma registryGet_app r1 r2 nm :
  registryGet (r1 ++ r2) nm =
  match registryGet r1 nm with Some o => Some o | None => registryGet r2 nm end.
Proof.
  unfold registryGet. induction r1 as [|o r1 IH]; simpl; [done|].
  destruct (String.eqb _ nm); done.
Qed.

Lemma nearestObject_concat rs nm : nearestObject rs nm = registryGet (concat rs) nm.
Proof.
  induction rs as [|r rs IH]; simpl; [done|].
  rewrite registryGet_app, IH. done.
Qed.

Lemma registryGet_Some r nm o :
  registryGet r nm = Some o -> o ∈ r /\ name (def o) = nm.
Proof.
  unfold registryGet. intros H. apply find_some in H as [Hin Heq].
  apply String.eqb_eq in Heq. split; [by apply list_elem_of_In|done].
Qed.

Lemma registryGet_None r nm :
  registryGet r nm = None <-> nm ∉ namesOf r.
Proof.
  unfold registryGet, namesOf. induction r as [|o r IH]; simpl.
  - split; [intros _; apply not_elem_of_nil|done].
  - destruct (String.eqb (name (def o)) nm) eqn:E.
    + apply String.eqb_eq in E. split; [done|]. intros H. exfalso. apply H. rewrite <- E. by left.
    + apply String.eqb_neq in E. rewrite IH, not_elem_of_cons. naive_solver.
Qed.

Lemma elem_of_namesOf nm objects :
  nm ∈ namesOf objects <-> exists o, o ∈ objects /\ name (def o) = nm.
Proof.
  unfold namesOf. rewrite list_elem_of_fmap. naive_solver.
Qed.

Lemma forEachObject_spec objects : forall visited visited' calls,
  forEachObject visited objects = (visited', calls) ->
  (forall nm, nm ∈ visited' <-> nm ∈ visited \/ nm ∈ namesOf objects) /\
  sublist calls objects /\
  NoDup (namesOf calls) /\
  (forall o, o ∈ calls ->
     (name (def o) ∉ visited) /\ registryGet objects (name (def o)) = Some o) /\
  (forall nm, nm ∈ namesOf objects -> nm ∉ visited -> nm ∈ namesOf calls).
Proof.
  induction objects as [|o rest IH]; intros visited visited' calls Hrun; simpl in Hrun.
  - injection Hrun as <- <-. repeat split.
    + by left.
    + intros [?|H]; [done|]. by apply elem_of_nil in H.
    + constructor.
    + constructor.
    + by apply elem_of_nil in H.
    + by apply elem_of_nil in H.
    + intros nm H. by apply elem_of_nil in H.
  - destruct (decide (name (def o) ∈ visited)) as [Hseen|Hnew].
    + destruct (IH _ _ _ Hrun) as (Hv & Hsub & Hnd & Hcalls & Hall).
      split; [|split; [|split; [|split]]].
      * intros nm. rewrite Hv. unfold namesOf; simpl. rewrite elem_of_cons.
        split; [naive_solver|]. intros [?|[->|?]]; auto.
      * by apply sublist_cons.
      * done.
      * intros o' Ho'. destruct (Hcalls o' Ho') as [Hnot Hget]. split; [done|].
        unfold registryGet in *; simpl.
        destruct (String.eqb (name (def o)) (name (def o'))) eqn:E; [|done].
        apply String.eqb_eq in E. congruence.
      * intros nm Hnm Hnot. apply Hall; [|done].
        unfold namesOf in Hnm; simpl in Hnm. apply elem_of_cons in Hnm as [->|Hnm]; done.
    + destruct (forEachObject ({[name (def o)]} ∪ visited) rest) as [v1 calls1] eqn:Hrest.
      injection Hrun as <- <-.
      destruct (IH _ _ _ Hrest) as (Hv & Hsub & Hnd & Hcalls & Hall).
      split; [|split; [|split; [|split]]].
      * intros nm. rewrite Hv. unfold namesOf; simpl. rewrite elem_of_cons.
        rewrite elem_of_union, elem_of_singleton. naive_solver.
      * by apply sublist_skip.
      * unfold namesOf; simpl. apply NoDup_cons. split; [|done].
        intros Hin. apply elem_of_namesOf in Hin as (o' & Ho' & Heq).
        destruct (Hcalls o' Ho') as [Hnot _]. apply Hnot. rewrite Heq. set_solver.
      * intros o' Ho'. apply elem_of_cons in Ho' as [->|Ho'].
        { split; [done|]. unfold registryGet; simpl. by rewrite String.eqb_refl. }
        destruct (Hcalls o' Ho') as [Hnot Hget]. split; [set_solver|].
        unfold registryGet in *; simpl.
        destruct (String.eqb (name (def o)) (name (def o'))) eqn:E; [|done].
        apply String.eqb_eq in E. exfalso. apply Hnot. rewrite E. set_solver.
      * intros nm Hnm Hnot. unfold namesOf in *; simpl in *.
        apply elem_of_cons in Hnm as [->|Hnm]; [by left|].
        destruct (decide (nm = name (def o))) as [->|Hne]; [by left|].
        right. apply Hall; [done|]. set_solver.
Qed.

Lemma forEachScope_spec scopes : forall visited scopeRegistries,
  let calls := forEachScope visited scopes scopeRegistries in
  let rs := chainRegistries scopes scopeRegistries in
  sublist calls (concat rs) /\
  NoDup (namesOf calls) /\
  (forall o, o ∈ calls ->
     (name (def o) ∉ visited) /\ nearestObject rs (name (def o)) = Some o) /\
  (forall nm, nm ∈ namesOf (concat rs) -> nm ∉ visited -> nm ∈ namesOf calls).
Proof.
  induction scopes as [|s parents IH]; intros visited regs; simpl.
  - repeat split.
    + constructor.
    + constructor.
    + by apply elem_of_nil in H.
    + by apply elem_of_nil in H.
    + intros nm H. by apply elem_of_nil in H.
  - destruct (forEachObject visited (hd [] regs)) as [v1 calls1] eqn:Hhere.
    destruct (forEachObject_spec _ _ _ _ Hhere) as (Hv & Hsub & Hnd & Hcalls & Hall).
    destruct (IH v1 (tl regs)) as (Hsub' & Hnd' & Hcalls' & Hall').
    split; [|split; [|split]].
    + by apply sublist_app.
    + unfold namesOf. rewrite map_app. apply NoDup_app. split; [done|]. split; [|done].
      intros nm Hin1 Hin2. apply elem_of_namesOf in Hin2 as (o' & Ho' & Heq).
      destruct (Hcalls' o' Ho') as [Hnot _]. apply Hnot. rewrite Heq.
      apply Hv. right. apply elem_of_namesOf in Hin1 as (o1 & Ho1 & Heq1).
      apply elem_of_namesOf. exists o1. split; [|done].
      eapply elem_of_sublist; eauto.
    + intros o Ho. apply elem_of_app in Ho as [Ho|Ho].
      * destruct (Hcalls o Ho) as [Hnot Hget]. split; [done|]. by rewrite Hget.
      * destruct (Hcalls' o Ho) as [Hnot Hget].
        assert ((name (def o) ∉ visited) /\ (name (def o) ∉ namesOf (hd [] regs))) as [Hn1 Hn2].
        { split; intros Hin; apply Hnot, Hv; auto. }
        split; [done|]. apply registryGet_None in Hn2. by rewrite Hn2.
    + intros nm Hnm Hnot. unfold namesOf in *. rewrite map_app in Hnm. rewrite map_app.
      apply elem_of_app in Hnm. apply elem_of_app.
      destruct (decide (nm ∈ map (fun object => name (def object)) (hd [] regs))) as [Hin|Hout].
      * left. by apply Hall.
      * right. destruct Hnm as [Hnm|Hnm]; [done|]. apply Hall'; [done|].
        intros Hv1. apply Hv in Hv1 as [?|?]; done.
Qed.

(** C7.  For every resolver chain, the objects [forEach] hands to its
    callback carry pairwise distinct names; a name is handed over if and
    only if some registry of the chain holds it; the object handed over for
    a name is the one of the nearest scope that holds the name, an entry of
    the same name further up being skipped; and the calls follow the order
    of the chain, nearest scope first. *)
Theorem forEach_visits_each_name_once_nearest_first
  (this : ScopedObjectContext) (ancestors : list ScopedObjectContext) (st : Store) :
  let calls := forEach this ancestors st in
  let rs := chainRegistries (this :: ancestors) (registries st) in
  NoDup (namesOf calls) /\
  (forall nm, nm ∈ namesOf calls <-> exists r o, r ∈ rs /\ o ∈ r /\ name (def o) = nm) /\
  (forall o, o ∈ calls -> nearestObject rs (name (def o)) = Some o) /\
  sublist calls (concat rs).
Proof.
  intros calls rs.
  destruct (forEachScope_spec (this :: ancestors) ∅ (registries st))
    as (Hsub & Hnd & Hcalls & Hall).
  fold calls in Hsub, Hnd, Hcalls, Hall. fold rs in Hsub, Hcalls, Hall.
  split; [done|]. split; [|split; [|done]].
  - intros nm. split.
    + intros Hin. apply elem_of_namesOf in Hin as (o & Ho & Heq).
      assert (o ∈ concat rs) as Hc by (eapply elem_of_sublist; eauto).
      apply elem_of_concat in Hc as (r & Hr & Hor). by exists r, o.
    + intros (r & o & Hr & Ho & Heq). apply Hall; [|set_solver].
      apply elem_of_namesOf. exists o. split; [|done].
      apply elem_of_concat. by exists r.
  - intros o Ho. by apply Hcalls.
Qed.

(** ** Object creation (C4, C5) *)

Section Create.

Variable tryParse : JsValue -> option Uri.

Lemma factoryFor_none scopes typeTag :
  noFactorySupports scopes typeTag -> factoryFor scopes typeTag = None.
Proof.
  induction scopes as [|scope rest IH]; intros Hno; simpl; [done|].
  assert (noFactorySupports rest typeTag) as Hrest.
  { intros sc f Hin Hf. apply (Hno sc f); [by right|done]. }
  destruct (_objectFactory scope) as [factory|] eqn:Hf; [|by apply IH].
  rewrite (Hno scope factory); [by apply IH|by left|done].
Qed.

Lemma providerFor_none scopes uri :
  noProviderSupports scopes (uri_protocol uri) -> providerFor scopes uri = None.
Proof.
  induction scopes as [|scope rest IH]; intros Hno; simpl; [done|].
  assert (noProviderSupports rest (uri_protocol uri)) as Hrest.
  { intros sc p Hin Hp. apply (Hno sc p); [by right|done]. }
  destruct (_objectProvider scope) as [provider|] eqn:Hp; [|by apply IH].
  rewrite (Hno scope provider); [by apply IH|by left|done].
Qed.

Lemma everyTryParse_all elems :
  Forall (fun elem => is_Some (tryParse elem)) elems ->
  exists uris, everyTryParse tryParse elems = Some uris /\ length uris = length elems.
Proof.
  induction 1 as [|elem rest [uri Huri] _ (uris & Hrest & Hlen)]; simpl.
  - by exists [].
  - rewrite Huri, Hrest. exists (uri :: uris). simpl. by rewrite Hlen.
Qed.

Lemma everyTryParse_fails elems elem :
  elem ∈ elems -> tryParse elem = None -> everyTryParse tryParse elems = None.
Proof.
  induction elems as [|e rest IH]; intros Hin Hnone; [by apply elem_of_nil in Hin|].
  simpl. apply elem_of_cons in Hin as [<-|Hin].
  - by rewrite Hnone.
  - destruct (tryParse e); [|done]. by rewrite IH.
Qed.

(** X24.  For every resolver chain and store, a tagged object whose type no
    scope of the chain supports, and a reference string whose protocol no
    scope supports (and likewise a sequence headed by one of them), makes
    [create] raise the error that names the type or protocol and carries the
    input, and the store of the chain is left as it was.  The tagged object
    has no property [hasOwnProperty] of its own and its tag converts to a
    string; the sequence of references is a sequence of strings. *)
Theorem create_unsupported_raises_and_keeps_state
  (this : ScopedObjectContext) (ancestors : list ScopedObjectContext)
  (input : JsValue) (e : Error) (st : Store) :
  Unsupported tryParse (this :: ancestors) input e ->
  create tryParse this ancestors input st = (Err e, st).
Proof.
  intros [props tag Hcall Htag Hprint Hno | s uri Huri Hno
         | props rest tag Hcall Htag Hprint Hno | s rest uri Huri Hall Hno]; simpl.
  - unfold createFromObject, callsHasOwnProperty. rewrite Hcall, Htag.
    unfold createTagged, selectFactory, unsupportedType.
    by rewrite (factoryFor_none _ _ Hno), Hprint.
  - rewrite Huri. unfold selectProvider. by rewrite (providerFor_none _ _ Hno).
  - unfold createFromObject, callsHasOwnProperty. rewrite Hcall, Htag.
    unfold createTagged, selectFactory, unsupportedType.
    by rewrite (factoryFor_none _ _ Hno), Hprint.
  - rewrite Huri.
    assert (Forall (fun elem => is_Some (tryParse elem)) rest) as Hparsed.
    { eapply Forall_impl; [exact Hall|]. by intros elem [_ ?]. }
    destruct (everyTryParse_all rest Hparsed) as (uris & -> & _).
    unfold selectProvider. by rewrite (providerFor_none _ _ Hno).
Qed.

(** C5, on tagged objects of a type no scope supports.  The object that has
    a property [hasOwnProperty] of its own makes [create] throw a
    [TypeError] at [input.hasOwnProperty('_type')], before any builder is
    selected; the object whose tag has a property [toString] of its own
    makes [selectFactory] throw a [TypeError] while it builds the message of
    its error.  Neither error names the type or carries the input.  The
    store is left as it was. *)
Theorem create_unsupported_throws_type_error
  (this : ScopedObjectContext) (ancestors : list ScopedObjectContext) (st : Store) :
  let shadowed := JsObject [("hasOwnProperty", JsNumber 1); ("_type", JsString "Text")] in
  let tag := JsObject [("toString", JsNumber 1)] in
  let unprintable := JsObject [("_type", tag)] in
  noFactorySupports (this :: ancestors) (JsString "Text") ->
  noFactorySupports (this :: ancestors) tag ->
  create tryParse this ancestors shadowed st
    = (Err (TypeError "hasOwnProperty is not a function"), st) /\
  create tryParse this ancestors shadowed st
    <> (Err (UnsupportedType (JsString "Text") shadowed), st) /\
  create tryParse this ancestors unprintable st
    = (Err (TypeError "Cannot convert object to primitive value"), st) /\
  create tryParse this ancestors unprintable st
    <> (Err (UnsupportedType tag unprintable), st).
Proof.
  intros shadowed tag unprintable Htext Htag.
  assert (create tryParse this ancestors unprintable st
          = (Err (TypeError "Cannot convert object to primitive value"), st)) as Hunprintable.
  { change (create tryParse this ancestors unprintable st)
      with (createTagged this ancestors tag unprintable st).
    unfold createTagged, selectFactory. by rewrite (factoryFor_none _ _ Htag). }
  split; [reflexivity|]. split; [discriminate|]. split; [exact Hunprintable|].
  rewrite Hunprintable. discriminate.
Qed.

(** X5.  The inputs [create] has nothing to construct from come back
    unchanged, and the store with them. *)
Lemma create_passes_through
  (this : ScopedObjectContext) (ancestors : list ScopedObjectContext)
  (input : JsValue) (st : Store) :
  PassedThrough tryParse input ->
  create tryParse this ancestors input st = (Ok input, st).
Proof.
  intros [ | s rest elem _ Hin Hnone | s Hnone | props Hcall Hno | props rest Hcall Hno
         | elems rest | first rest Hfirst | | b | n ]; simpl; try done.
  - change (match tryParse (JsString s) with
            | Some uri => match everyTryParse tryParse rest with
                          | Some uris => Some (uri :: uris)
                          | None => None
                          end
            | None => None
            end) with (everyTryParse tryParse (JsString s :: rest)).
    by rewrite (everyTryParse_fails _ _ Hin Hnone).
  - by rewrite Hnone.
  - unfold createFromObject, callsHasOwnProperty. by rewrite Hcall, Hno.
  - unfold createFromObject, callsHasOwnProperty. by rewrite Hcall, Hno.
  - destruct Hfirst as [->|[[b ->]|[n ->]]]; done.
Qed.

(** C4, the input [null].  [typeof null] is ['object'], so [create] reaches
    [input.hasOwnProperty('_type')] and throws instead of returning its
    input; the same happens on a sequence whose first element is [null]. *)
Theorem create_null_throws
  (this : ScopedObjectContext) (ancestors : list ScopedObjectContext) (st : Store) :
  create tryParse this ancestors JsNull st
    = (Err (TypeError "Cannot read property 'hasOwnProperty' of null"), st) /\
  create tryParse this ancestors JsNull st <> (Ok JsNull, st) /\
  forall rest,
    create tryParse this ancestors (JsArray (JsNull :: rest)) st
      <> (Ok (JsArray (JsNull :: rest)), st).
Proof.
  split; [reflexivity|]. split; [discriminate|]. intros rest. discriminate.
Qed.

End Create.

(** ** Named objects along the chain (C1, C9, C10) *)

Lemma hd_drop {A} (d : A) (l : list A) n : hd d (drop n l) = nth n l d.
Proof. revert l. induction n as [|n IH]; intros [|x l]; simpl; auto. Qed.

Lemma tl_drop {A} (l : list A) n : tl (drop n l) = drop (S n) l.
Proof. revert l. induction n as [|n IH]; intros [|x l]; simpl; auto. Qed.

Lemma nth_drop {A} (d : A) (l : list A) n i : nth i (drop n l) d = nth (n + i) l d.
Proof.
  revert l. induction n as [|n IH]; intros [|x l]; simpl; auto. by destruct i.
Qed.

Lemma firstHit_nth nm scopes : forall regs d k o,
  firstHit (chainRegistries scopes regs) nm d = Some (k, o) ->
  exists i, k = (d + i)%nat /\ (i < length scopes)%nat /\
            registryGet (nth i regs []) nm = Some o /\
            forall j, (j < i)%nat -> registryGet (nth j regs []) nm = None.
Proof.
  induction scopes as [|s scopes IH]; intros regs d k o Hhit; simpl in Hhit; [done|].
  destruct (registryGet (hd [] regs) nm) as [o'|] eqn:Hhere.
  - injection Hhit as <- <-. exists 0%nat. repeat split.
    + lia.
    + simpl; lia.
    + by destruct regs.
    + intros j Hj. lia.
  - destruct (IH _ _ _ _ Hhit) as (i & -> & Hi & Hget & Hmiss).
    exists (S i). repeat split.
    + lia.
    + simpl; lia.
    + destruct regs; [by destruct i|done].
    + intros [|j] Hj; [by destruct regs|].
      specialize (Hmiss j ltac:(lia)). destruct regs; [by destruct j|done].
Qed.

Lemma firstHit_intro nm scopes : forall regs d i o,
  (i < length scopes)%nat ->
  registryGet (nth i regs []) nm = Some o ->
  (forall j, (j < i)%nat -> registryGet (nth j regs []) nm = None) ->
  firstHit (chainRegistries scopes regs) nm d = Some ((d + i)%nat, o).
Proof.
  induction scopes as [|s scopes IH]; intros regs d i o Hi Hget Hmiss; simpl in *; [lia|].
  destruct i as [|i].
  - replace (hd [] regs) with (nth 0 regs []) by (by destruct regs).
    rewrite Hget. f_equal. f_equal. lia.
  - replace (hd [] regs) with (nth 0 regs []) by (by destruct regs).
    rewrite (Hmiss 0%nat ltac:(lia)).
    replace (d + S i)%nat with (S d + i)%nat by lia.
    apply IH; [lia| |].
    + destruct regs; [by destruct i|done].
    + intros j Hj. specialize (Hmiss (S j) ltac:(lia)).
      destruct regs; [by destruct j|done].
Qed.

Lemma registryGet_insert r o : registryGet (registryInsert r o) (name (def o)) = Some o.
Proof.
  unfold registryGet. induction r as [|held rest IH]; simpl.
  - by rewrite String.eqb_refl.
  - destruct (String.eqb (name (def held)) (name (def o))) eqn:E; simpl.
    + by rewrite String.eqb_refl.
    + by rewrite E.
Qed.

Lemma lookupChain_None {A} (localGet : ScopedObjectContextDef -> option A) d n :
  (forall d', d' ∈ withinBudget d n -> localGet d' = None) ->
  lookupChain localGet d n = None.
Proof.
  intros Hall. pose proof (lookupChain_nearest localGet d n) as Hn.
  destruct (lookupChain localGet d n) as [decl|]; [|done].
  destruct Hn as (i & d' & Hi & Hdecl & _).
  rewrite Hall in Hdecl; [done|]. eapply list_elem_of_lookup_2; eauto.
Qed.

Lemma overridden_false {A B} (lookup : A -> Z -> option B) deps depth :
  (forall dep, dep ∈ deps -> lookup dep (depth - 1)%Z = None) ->
  overridden lookup deps depth = false.
Proof.
  intros Hall. unfold overridden. apply not_true_is_false. intros Hex.
  apply existsb_exists in Hex as (dep & Hin & Hdep).
  apply bool_decide_eq_true in Hdep as [b Hb].
  rewrite Hall in Hb; [done|]. by apply list_elem_of_In.
Qed.

Lemma overridden_true {A B} (lookup : A -> Z -> option B) deps depth dep :
  dep ∈ deps -> is_Some (lookup dep (depth - 1)%Z) ->
  overridden lookup deps depth = true.
Proof.
  intros Hin Hsome. unfold overridden. apply existsb_exists.
  exists dep. split; [by apply list_elem_of_In|by apply bool_decide_eq_true].
Qed.

Lemma length_eqb_0 {A} (l : list A) : Nat.eqb (length l) 0 = true <-> l = [].
Proof. destruct l; simpl; split; done. Qed.

Section Get.

Variable tryParse : JsValue -> option Uri.

Lemma getFromAncestors_firstHit this ancestors nm st parents : forall regs depth,
  getFromAncestors tryParse this ancestors parents regs depth nm st =
  match firstHit (chainRegistries parents regs) nm depth with
  | Some (k, o) => inherit tryParse this ancestors o k st
  | None => (Ok None, st)
  end.
Proof.
  induction parents as [|p parents IH]; intros regs depth; simpl; [done|].
  destruct (registryGet (hd [] regs) nm); [done|]. apply IH.
Qed.

(** [get] in terms of the nearest registry that holds the name. *)
Lemma get_cases this ancestors nm st :
  get tryParse this ancestors nm st =
  match registryGet (hd [] (registries st)) nm with
  | Some o => (Ok (Some o), st)
  | None =>
      match firstHit (chainRegistries ancestors (tl (registries st))) nm 1 with
      | Some (k, o) => inherit tryParse this ancestors o k st
      | None => (Ok None, st)
      end
  end.
Proof.
  unfold get. destruct (registryGet _ nm); [done|]. apply getFromAncestors_firstHit.
Qed.

(** When no definition within [depth - 1] hops of the requesting
    definition declares a dependency of the object, [needsUpdate] answers
    false. *)
Lemma needsUpdate_nothing_overridden this ancestors o deps depth :
  dependencies (def o) = Some deps ->
  NothingOverridden this deps depth ->
  needsUpdate this ancestors o (Z.of_nat depth) = Ok false.
Proof.
  intros Hdeps Hnone. unfold needsUpdate. destruct ancestors as [|a ancestors]; [done|].
  unfold dependenciesOf. rewrite Hdeps. simpl.
  assert (overridden (getTypeDef (_def this)) (typeDependencies deps) (Z.of_nat depth)
          = false) as Ht.
  { apply overridden_false. intros t Ht. rewrite getTypeDef_lookupChain.
    apply lookupChain_None. intros d' Hd'. by apply (Hnone d' Hd'). }
  assert (overridden (getProviderDef (_def this)) (protocolDependencies deps)
            (Z.of_nat depth) = false) as Hp.
  { apply overridden_false. intros p Hp. rewrite getProviderDef_lookupChain.
    apply lookupChain_None. intros d' Hd'. by apply (Hnone d' Hd'). }
  assert (overridden (getNamedObjectDef (_def this)) (objectDependencies deps)
            (Z.of_nat depth) = false) as Ho.
  { apply overridden_false. intros x Hx. rewrite getNamedObjectDef_lookupChain.
    apply lookupChain_None. intros d' Hd'. by apply (Hnone d' Hd'). }
  rewrite Ht, Hp, Ho.
  destruct (negb _); simpl; destruct (negb _); simpl; destruct (negb _); done.
Qed.

Lemma needsUpdate_overridden this ancestors o deps depth :
  ancestors <> [] ->
  dependencies (def o) = Some deps ->
  Overridden this deps depth ->
  needsUpdate this ancestors o (Z.of_nat depth) = Ok true.
Proof.
  intros Hanc Hdeps Hover. unfold needsUpdate.
  destruct ancestors as [|a ancestors]; [done|].
  unfold dependenciesOf. rewrite Hdeps. simpl.
  destruct Hover as [t Htds Hin Hsome | p Hpds Hin Hsome | x Hods Hin Hsome].
  - destruct (Nat.eqb (length (typeDefs (_def this))) 0) eqn:E.
    { apply length_eqb_0 in E. done. }
    simpl. by rewrite (overridden_true _ _ _ t Hin Hsome).
  - destruct (negb (Nat.eqb (length (typeDefs (_def this))) 0)); simpl.
    + destruct (overridden (getTypeDef _) _ _); [done|].
      destruct (Nat.eqb (length (providerDefs (_def this))) 0) eqn:E.
      { apply length_eqb_0 in E. done. }
      simpl. by rewrite (overridden_true _ _ _ p Hin Hsome).
    + destruct (Nat.eqb (length (providerDefs (_def this))) 0) eqn:E.
      { apply length_eqb_0 in E. done. }
      simpl. by rewrite (overridden_true _ _ _ p Hin Hsome).
  - assert (Nat.eqb (length (namedObjectDefs (_def this))) 0 = false) as E.
    { apply not_true_is_false. intros E. apply length_eqb_0 in E. done. }
    destruct (negb (Nat.eqb (length (typeDefs (_def this))) 0)); simpl;
      [destruct (overridden (getTypeDef _) _ _); [done|]|];
      (destruct (negb (Nat.eqb (length (providerDefs (_def this))) 0)); simpl;
       [destruct (overridden (getProviderDef _) _ _); [done|]|]);
      rewrite E; simpl; by rewrite (overridden_true _ _ _ x Hin Hsome).
Qed.

(** An override declared by the requesting scope itself is always seen. *)
Lemma override_at_requesting_scope_is_seen this deps depth :
  (exists t, t ∈ typeDependencies deps /\ is_Some (mapGet (_typeNameToDef (_def this)) t)) \/
  (exists p, p ∈ protocolDependencies deps /\ is_Some (_protocolNameToDef (_def this) !! p)) \/
  (exists o, o ∈ objectDependencies deps /\ is_Some (_objectNameToDef (_def this) !! o)) ->
  Overridden this deps depth.
Proof.
  intros [(t & Hin & [decl Hdecl])|[(p & Hin & [decl Hdecl])|(o & Hin & [decl Hdecl])]].
  - apply (overridden_type _ _ _ t); [|done|].
    + destruct t; simpl in Hdecl; try done.
      apply buildMap_declared in Hdecl as [Hd _]. intros E. rewrite E in Hd.
      by apply elem_of_nil in Hd.
    + exists decl. destruct (_def this); simpl in *. by rewrite Hdecl.
  - apply (overridden_protocol _ _ _ p); [|done|].
    + apply buildMap_declared in Hdecl as [Hd _]. intros E. rewrite E in Hd.
      by apply elem_of_nil in Hd.
    + exists decl. destruct (_def this); simpl in *. by rewrite Hdecl.
  - apply (overridden_object _ _ _ o); [|done|].
    + apply buildMap_declared in Hdecl as [Hd _]. intros E. rewrite E in Hd.
      by apply elem_of_nil in Hd.
    + exists decl. destruct (_def this); simpl in *. by rewrite Hdecl.
Qed.

(** C9.  For every resolver chain, when [get] misses in the registry of the
    requesting scope, first hits an ancestor's object [depth] hops up, and
    that object needs no update, the call returns that very object (the
    entry of the ancestor's registry, same identity) and leaves the store,
    hence every registry, as it was. *)
Theorem get_shares_ancestor_object
  (this : ScopedObjectContext) (ancestors : list ScopedObjectContext)
  (objectName : string) (st : Store) (depth : nat) (found : NamedObject) :
  registryGet (hd [] (registries st)) objectName = None ->
  firstHit (chainRegistries ancestors (tl (registries st))) objectName 1
    = Some (depth, found) ->
  needsUpdate this ancestors found (Z.of_nat depth) = Ok false ->
  get tryParse this ancestors objectName st = (Ok (Some found), st) /\
  registryGet (nth depth (registries st) []) objectName = Some found.
Proof.
  intros Hmiss Hhit Hno. split.
  - rewrite get_cases, Hmiss, Hhit. unfold inherit. by rewrite Hno.
  - apply firstHit_nth in Hhit as (i & -> & _ & Hget & _).
    simpl. destruct (registries st); [by destruct i|done].
Qed.

(** The same in terms of the declarations: nothing the object depends on
    is declared within [depth - 1] hops of the requesting definition. *)
Lemma get_shares_when_nothing_overridden
  (this : ScopedObjectContext) (ancestors : list ScopedObjectContext)
  (objectName : string) (st : Store) (depth : nat) (found : NamedObject)
  (deps : ObjectContextDependency) :
  registryGet (hd [] (registries st)) objectName = None ->
  firstHit (chainRegistries ancestors (tl (registries st))) objectName 1
    = Some (depth, found) ->
  dependencies (def found) = Some deps ->
  NothingOverridden this deps depth ->
  get tryParse this ancestors objectName st = (Ok (Some found), st).
Proof.
  intros Hmiss Hhit Hdeps Hnone.
  rewrite get_cases, Hmiss, Hhit. unfold inherit.
  by rewrite (needsUpdate_nothing_overridden _ _ _ deps).
Qed.

Lemma needsUpdate_without_declarations this ancestors o depth :
  typeDefs (_def this) = [] ->
  providerDefs (_def this) = [] ->
  namedObjectDefs (_def this) = [] ->
  needsUpdate this ancestors o depth = Ok false.
Proof.
  intros Ht Hp Ho. unfold needsUpdate. destruct ancestors; [done|].
  by rewrite Ht, Hp, Ho.
Qed.

(** C10.  [needsUpdate] looks at the recorded dependencies of one kind only
    when the definition of the requesting scope declares an entry of that
    kind: with no type declaration its answer does not depend on the type
    dependencies, and likewise for protocols and named objects.  When the
    three lists of the requesting definition are empty it answers false for
    every named object and depth, and [get], on a miss in the own registry
    followed by a hit further up, returns the object of the ancestor and
    leaves the store as it was, whatever the scopes in between declare. *)
Theorem needsUpdate_gated_by_own_declarations
  (this : ScopedObjectContext) (ancestors : list ScopedObjectContext) :
  (typeDefs (_def this) = [] ->
   forall o deps types' depth, dependencies (def o) = Some deps ->
     needsUpdate this ancestors
       (withRecorded {| typeDependencies := types';
                        protocolDependencies := protocolDependencies deps;
                        objectDependencies := objectDependencies deps |} o) depth
     = needsUpdate this ancestors o depth) /\
  (providerDefs (_def this) = [] ->
   forall o deps protocols' depth, dependencies (def o) = Some deps ->
     needsUpdate this ancestors
       (withRecorded {| typeDependencies := typeDependencies deps;
                        protocolDependencies := protocols';
                        objectDependencies := objectDependencies deps |} o) depth
     = needsUpdate this ancestors o depth) /\
  (namedObjectDefs (_def this) = [] ->
   forall o deps objects' depth, dependencies (def o) = Some deps ->
     needsUpdate this ancestors
       (withRecorded {| typeDependencies := typeDependencies deps;
                        protocolDependencies := protocolDependencies deps;
                        objectDependencies := objects' |} o) depth
     = needsUpdate this ancestors o depth) /\
  (typeDefs (_def this) = [] ->
   providerDefs (_def this) = [] ->
   namedObjectDefs (_def this) = [] ->
   (forall o depth, needsUpdate this ancestors o depth = Ok false) /\
   (forall objectName st depth found,
      registryGet (hd [] (registries st)) objectName = None ->
      firstHit (chainRegistries ancestors (tl (registries st))) objectName 1
        = Some (depth, found) ->
      get tryParse this ancestors objectName st = (Ok (Some found), st))).
Proof.
  split; [|split; [|split]].
  - intros Ht o deps types' depth Hdeps. unfold needsUpdate.
    destruct ancestors; [done|]. rewrite Ht. simpl.
    unfold dependenciesOf. simpl. by rewrite Hdeps.
  - intros Hp o deps protocols' depth Hdeps. unfold needsUpdate.
    destruct ancestors; [done|]. rewrite Hp. simpl.
    unfold dependenciesOf. simpl. by rewrite Hdeps.
  - intros Ho o deps objects' depth Hdeps. unfold needsUpdate.
    destruct ancestors; [done|]. rewrite Ho. simpl.
    unfold dependenciesOf. simpl. by rewrite Hdeps.
  - intros Ht Hp Ho. split.
    + intros o depth. by apply needsUpdate_without_declarations.
    + intros nm st depth found Hmiss Hhit.
      rewrite get_cases, Hmiss, Hhit. unfold inherit.
      by rewrite needsUpdate_without_declarations.
Qed.

(** The scopes between the requesting scope and the owner of a named
    object: the scope [hops] levels up, with the chain above it and the store
    as it sees it, still gets the object of the owner, provided it finds
    nothing to update (the owner itself finds the object in its own
    registry). *)
Lemma get_above_returns_original
  (ancestors : list ScopedObjectContext) (objectName : string) (st : Store)
  (depth : nat) (found : NamedObject) (hops : nat) (above : ScopedObjectContext) :
  firstHit (chainRegistries ancestors (tl (registries st))) objectName 1
    = Some (depth, found) ->
  (1 <= hops <= depth)%nat ->
  ancestors !! (hops - 1)%nat = Some above ->
  ((hops < depth)%nat ->
   needsUpdate above (drop hops ancestors) found (Z.of_nat (depth - hops)) = Ok false) ->
  get tryParse above (drop hops ancestors) objectName (storeView hops st)
    = (Ok (Some found), storeView hops st).
Proof.
  intros Hhit Hhops Habove Hno.
  apply firstHit_nth in Hhit as (i & -> & Hi & Hget & Hmiss).
  assert (forall j, nth j (tl (registries st)) [] = nth (S j) (registries st) []) as Htl.
  { intros j. destruct (registries st); [by destruct j|done]. }
  rewrite Htl in Hget.
  rewrite get_cases. unfold storeView; simpl. rewrite hd_drop, tl_drop.
  destruct (decide (hops = 1 + i)%nat) as [->|Hlt].
  - change (1 + i)%nat with (S i). by rewrite Hget.
  - destruct hops as [|h]; [lia|].
    rewrite <- (Htl h), (Hmiss h) by lia.
    rewrite (firstHit_intro objectName _ _ 1%nat (i - S h)%nat found).
    + unfold inherit. replace (1 + (i - S h))%nat with (1 + i - S h)%nat by lia.
      rewrite Hno by lia. done.
    + rewrite length_drop. lia.
    + rewrite nth_drop. replace (S (S h) + (i - S h))%nat with (S i) by lia. done.
    + intros j Hj. rewrite nth_drop. simpl. rewrite <- Htl. apply Hmiss. lia.
Qed.

(** When the rebuild fails, [get] throws what [create] threw and caches
    nothing of its own. *)
Lemma get_rebuild_propagates_failure
  (this : ScopedObjectContext) (ancestors : list ScopedObjectContext)
  (objectName : string) (st : Store) (depth : nat) (found : NamedObject)
  (deps : ObjectContextDependency) (e : Error) (st' : Store) :
  registryGet (hd [] (registries st)) objectName = None ->
  firstHit (chainRegistries ancestors (tl (registries st))) objectName 1
    = Some (depth, found) ->
  dependencies (def found) = Some deps ->
  Overridden this deps depth ->
  create tryParse this ancestors (value (def found)) st = (Err e, st') ->
  get tryParse this ancestors objectName st = (Err e, st').
Proof.
  intros Hmiss Hhit Hdeps Hover Hcreate.
  assert (ancestors <> []) as Hanc by (intros ->; simpl in Hhit; done).
  rewrite get_cases, Hmiss, Hhit. unfold inherit.
  rewrite (needsUpdate_overridden _ _ _ deps) by done.
  by rewrite Hcreate.
Qed.

End Get.

(** ** The three-scope chain of the specification *)

Lemma no_scope_builds (typeTag : JsValue) :
  sameValueZero typeTag (JsString "Number") = false ->
  noFactorySupports [requestScope; applicationScope; globalScope] typeTag.
Proof.
  intros Hother sc factory Hin Hf.
  repeat (apply elem_of_cons in Hin as [->|Hin]); [| | |by apply elem_of_nil in Hin];
    simpl in Hf; injection Hf as <-; [reflexivity|exact Hother|exact Hother].
Defined.

(** An object of a type no scope supports, requested at the request
    scope. *)
Lemma create_unsupported_witness :
  create referenceParse requestScope [applicationScope; globalScope]
    (JsObject [("_type", JsString "Text")]) store0
  = (Err (UnsupportedType (JsString "Text") (JsObject [("_type", JsString "Text")])), store0).
Proof.
  apply create_unsupported_raises_and_keeps_state.
  apply unsupported_tagged_object;
    [reflexivity|reflexivity|reflexivity|apply no_scope_builds; reflexivity].
Defined.

(** The same type on an object that hides [hasOwnProperty], and a tag that
    hides [toString], requested at the request scope. *)
Lemma create_unsupported_throws_witness :
  let shadowed := JsObject [("hasOwnProperty", JsNumber 1); ("_type", JsString "Text")] in
  let tag := JsObject [("toString", JsNumber 1)] in
  let unprintable := JsObject [("_type", tag)] in
  create referenceParse requestScope [applicationScope; globalScope] shadowed store0
    = (Err (TypeError "hasOwnProperty is not a function"), store0) /\
  create referenceParse requestScope [applicationScope; globalScope] shadowed store0
    <> (Err (UnsupportedType (JsString "Text") shadowed), store0) /\
  create referenceParse requestScope [applicationScope; globalScope] unprintable store0
    = (Err (TypeError "Cannot convert object to primitive value"), store0) /\
  create referenceParse requestScope [applicationScope; globalScope] unprintable store0
    <> (Err (UnsupportedType tag unprintable), store0).
Proof.
  apply (create_unsupported_throws_type_error referenceParse requestScope
           [applicationScope; globalScope] store0);
    apply no_scope_builds; reflexivity.
Defined.

(** The tenant scope declares nothing [base] depends on: it gets the object
    of the global scope. *)
Lemma get_shares_witness :
  get referenceParse tenantScope [globalScope] "base" (storeView 1 store0)
    = (Ok (Some globalBase), storeView 1 store0) /\
  registryGet (nth 1 (registries (storeView 1 store0)) []) "base" = Some globalBase.
Proof.
  apply (get_shares_ancestor_object referenceParse tenantScope [globalScope] "base"
           (storeView 1 store0) 1 globalBase); reflexivity.
Defined.

(** The request scope declares nothing at all: [needsUpdate] has nothing to
    look at and [get] hands out the object of the global scope. *)
Lemma needsUpdate_gated_witness :
  get referenceParse requestScope [applicationScope; globalScope] "base" store0
    = (Ok (Some globalBase), store0).
Proof.
  apply (proj2 (proj2 (proj2 (needsUpdate_gated_by_own_declarations referenceParse
           requestScope [applicationScope; globalScope])))
           eq_refl eq_refl eq_refl) with (depth := 2%nat); reflexivity.
Defined.

(** C1 at the request scope.  [base] is declared two hops up, at the global
    scope, with the type [Number] among its dependencies; the application
    scope, one hop up, overrides [Number]; yet [get] at the request scope,
    below the override, returns the object of the global scope, labelled
    [global], and rebuilds nothing. *)
Lemma get_below_override_returns_original :
  firstHit (chainRegistries [applicationScope; globalScope] (tl (registries store0)))
    "base" 1 = Some (2%nat, globalBase) /\
  dependencies (def globalBase) = Some baseDependencies /\
  JsString "Number" ∈ typeDependencies baseDependencies /\
  _typeNameToDef (_def applicationScope) !! "Number" = Some (numberType "application") /\
  get referenceParse requestScope [applicationScope; globalScope] "base" store0
    = (Ok (Some globalBase), store0) /\
  scope globalBase <> _scope requestScope /\
  ~ (exists fresh st',
       get referenceParse requestScope [applicationScope; globalScope] "base" store0
         = (Ok (Some fresh), st') /\
       scope fresh = _scope requestScope).
Proof.
  split; [reflexivity|]. split; [reflexivity|]. split; [apply list_elem_of_here|].
  split; [reflexivity|]. split; [reflexivity|]. split; [discriminate|].
  intros (fresh & st' & Hget & Hscope).
  change (get referenceParse requestScope [applicationScope; globalScope] "base" store0)
    with (Ok (Some globalBase), store0) in Hget.
  injection Hget as <- _. discriminate.
Qed.

(** The same request with one more declaration: a request scope that
    declares a type of its own, [Text], which [base] does not depend on,
    does see the override of the application scope and rebuilds [base] with
    the builder of that scope, under its own label. *)
Example get_below_override_with_own_declaration :
  get referenceParse textRequestScope [applicationScope; globalScope] "base" store0
    = (Ok (Some requestBase),
       {| nextIdentity := 2; registries := [[requestBase]; []; [globalBase]] |}).
Proof. reflexivity. Qed.

(** The example of the specification for [forEach]: two levels that both
    declare [x]; the callback sees [x] once, with the object of the nearer
    level. *)
Example forEach_shadowed_name :
  let near := {| identity := 1; def := declare "x" 1 []; built := JsNumber 1;
                 scope := "application" |} in
  let far := {| identity := 0; def := declare "x" 0 []; built := JsNumber 0;
                scope := "global" |} in
  forEach applicationScope [globalScope] {| nextIdentity := 2; registries := [[near]; [far]] |}
    = [near].
Proof. reflexivity. Qed.

(** Lookups from the request definition: [Number] is found one hop up with
    a budget of one hop, and not at all without budget. *)
Example getTypeDef_budget :
  getTypeDef requestDef (JsString "Number") 1 = Some (numberType "application") /\
  getTypeDef requestDef (JsString "Number") 0 = None /\
  getTypeDef globalDef (JsString "Number") defaultMaxDepth = Some (numberType "global").
Proof. repeat split; reflexivity. Qed.

(** The definitions of the chain are what the constructor returns for their
    declarations. *)
Example globalDef_constructed :
  newScopedObjectContextDef referenceParse None [numberType "global"] [] [baseDecl] true
    = Some (Ok globalDef).
Proof. reflexivity. Qed.

(** Once the application scope has rebuilt [base], the request scope finds
    that object one hop up and gets it as it is, labelled [application]. *)
Example get_below_override_after_rebuild :
  get referenceParse requestScope [applicationScope; globalScope] "base"
    {| nextIdentity := 2; registries := [[]; [applicationBase]; [globalBase]] |}
  = (Ok (Some applicationBase),
     {| nextIdentity := 2; registries := [[]; [applicationBase]; [globalBase]] |}).
Proof. reflexivity. Qed.

(** ** Dependency analysis (C2, C3, C6) *)

(** Induction on value trees. *)
Lemma JsValue_tree_ind (P : JsValue -> Prop) :
  P JsUndefined -> P JsNull -> (forall b, P (JsBool b)) -> (forall n, P (JsNumber n)) ->
  (forall s, P (JsString s)) ->
  (forall elems, Forall P elems -> P (JsArray elems)) ->
  (forall props, Forall (fun kv => P kv.2) props -> P (JsObject props)) ->
  forall v, P v.
Proof.
  intros Hu Hn Hb Hz Hs Ha Ho. fix IH 1.
  intros [ | |b|n|s|elems|props]; [apply Hu|apply Hn|apply Hb|apply Hz|apply Hs| |].
  - apply Ha. induction elems as [|v elems IHl]; constructor; [apply IH|apply IHl].
  - apply Ho. induction props as [|[k v] props IHl]; constructor; [apply IH|apply IHl].
Qed.

Section Analysis.

Variable tryParse : JsValue -> option Uri.

(** Direct dependency extraction never records a named-object
    dependency. *)
Lemma analyzeDirectDependencies_objects v : forall dep dep',
  analyzeDirectDependencies tryParse dep v = Ok dep' ->
  objectDependencies dep' = objectDependencies dep.
Proof.
  induction v as [ | |b|n|s|elems IH|props IH] using JsValue_tree_ind;
    intros dep dep' Hrun; simpl in Hrun; try (by injection Hrun as <-); try done.
  - destruct (tryParse (JsString s)); by injection Hrun as <-.
  - revert dep Hrun. induction IH as [|v elems Hv _ IHl]; intros dep Hrun.
    + by injection Hrun as <-.
    + destruct (analyzeDirectDependencies tryParse dep v) as [dep1|] eqn:E; [|done].
      rewrite (IHl _ Hrun). by apply Hv.
  - set (dep1 := match getProp "_type" props with
                 | Some typeName => if notNull typeName then setTypeDependency dep typeName else dep
                 | None => dep
                 end) in Hrun.
    assert (objectDependencies dep1 = objectDependencies dep) as <-.
    { unfold dep1. destruct (getProp "_type" props) as [t|]; [|done]. by destruct (notNull t). }
    clearbody dep1. revert dep1 Hrun.
    induction IH as [|[k v] props Hv _ IHl]; intros dep1 Hrun.
    + by injection Hrun as <-.
    + destruct (analyzeDirectDependencies tryParse dep1 v) as [dep2|] eqn:E; [|done].
      rewrite (IHl _ Hrun). by apply Hv.
Qed.

Lemma analyzeOne_analysed this def def' :
  analyzeOne tryParse this def = Ok def' -> analysed def'.
Proof.
  unfold analyzeOne. intros Hrun.
  destruct (analyzeDirectDependencies tryParse newDependency (value def)) as [dep|] eqn:E;
    simpl in Hrun; [|done].
  destruct (checkTypes this (name def) (typeDependencies dep)); simpl in Hrun; [|done].
  destruct (checkProtocols this (name def) (protocolDependencies dep)); simpl in Hrun; [|done].
  injection Hrun as <-. exists dep. split; [done|].
  by apply analyzeDirectDependencies_objects in E.
Qed.

Lemma firstPass_analysed this defs : forall defs',
  firstPass tryParse this defs = Ok defs' -> Forall analysed defs'.
Proof.
  induction defs as [|def rest IH]; intros defs' Hrun; simpl in Hrun.
  - injection Hrun as <-. constructor.
  - destruct (analyzeOne tryParse this def) as [def1|] eqn:E; simpl in Hrun; [|done].
    destruct (firstPass tryParse this rest) as [rest1|]; simpl in Hrun; [|done].
    injection Hrun as <-. constructor; [by eapply analyzeOne_analysed|by apply IH].
Qed.

Lemma seed_analysed defs : forall i resolved toResolve,
  Forall analysed defs ->
  exists resolved', seed defs i resolved toResolve = Ok (resolved', toResolve).
Proof.
  induction defs as [|def rest IH]; intros i resolved toResolve Hall; simpl.
  - by exists resolved.
  - apply Forall_cons in Hall as [(dep & Hdep & Hnone) Hrest].
    unfold dependenciesOf. rewrite Hdep. simpl. rewrite Hnone. simpl. by apply IH.
Qed.

(** After the first pass the second pass has nothing to resolve. *)
Lemma secondPass_after_firstPass defs :
  Forall analysed defs -> secondPass defs = Some (Ok defs).
Proof.
  intros Hall. unfold secondPass.
  destruct (seed_analysed defs 0 ∅ [] Hall) as (resolved' & ->). done.
Qed.

(** The analysis comes down to its first pass: the construction fails only
    with an error of that pass, and never for a named-object dependency. *)
Lemma analyzeNamedObjectDependencies_firstPass this :
  analyzeNamedObjectDependencies tryParse this
    = Some (firstPass tryParse this (namedObjectDefs this)).
Proof.
  unfold analyzeNamedObjectDependencies.
  destruct (firstPass tryParse this (namedObjectDefs this)) as [defs|] eqn:E; [|done].
  apply secondPass_after_firstPass. by eapply firstPass_analysed.
Qed.

Lemma seed_refs defs : forall i resolved toResolve bound,
  Forall hasDependencies defs ->
  Forall (fun record => (defRef record < bound)%nat) toResolve ->
  (i + length defs <= bound)%nat ->
  exists resolved' toResolve',
    seed defs i resolved toResolve = Ok (resolved', toResolve') /\
    Forall (fun record => (defRef record < bound)%nat) toResolve'.
Proof.
  induction defs as [|def rest IH]; intros i resolved toResolve bound Hall Hrefs Hbound;
    simpl.
  - by exists resolved, toResolve.
  - apply Forall_cons in Hall as [[dep Hdep] Hrest]. simpl in Hbound.
    unfold dependenciesOf. rewrite Hdep. simpl.
    destruct (negb (Nat.eqb (length (objectDependencies dep)) 0)).
    + apply IH; [done| |lia]. apply Forall_app. split; [done|].
      constructor; [simpl; lia|constructor].
    + apply IH; [done|done|lia].
Qed.

(** A round declares every record resolved: [Object_keys] is empty for each
    of them, so nothing is absorbed and nothing remains. *)
Lemma round_resolves_all records : forall defs resolved remaining n,
  Forall hasDependencies defs ->
  Forall (fun record => (defRef record < length defs)%nat) records ->
  exists resolved',
    round records defs resolved remaining n
      = Ok (defs, resolved', remaining, (n + length records)%nat).
Proof.
  induction records as [|record rest IH]; intros defs resolved remaining n Hall Hrefs; simpl.
  - exists resolved. by rewrite Nat.add_0_r.
  - apply Forall_cons in Hrefs as [Href Hrest].
    destruct (lookup_lt_is_Some_2 defs (defRef record) Href) as [def Hdef].
    unfold deref. rewrite Hdef. simpl.
    destruct (proj1 (Forall_lookup _ _) Hall _ _ Hdef) as [dep Hdep].
    unfold dependenciesOf. rewrite Hdep. simpl.
    destruct (IH defs (<[name def := objectDependencies dep]> resolved) remaining (S n)
                Hall Hrest) as (resolved' & ->).
    exists resolved'. by replace (n + S (length rest))%nat with (S n + length rest)%nat by lia.
Qed.

(** The second pass, whatever the named-object dependencies it starts from,
    cyclic or not: it ends after one round, reports nothing and returns the
    declarations as it found them. *)
Lemma secondPass_keeps_declarations defs :
  Forall hasDependencies defs -> secondPass defs = Some (Ok defs).
Proof.
  intros Hall. unfold secondPass.
  destruct (seed_refs defs 0 ∅ [] (length defs) Hall) as (resolved0 & records & -> & Hrefs);
    [constructor|simpl; lia|].
  destruct records as [|record records]; [done|].
  simpl length. cbn [rounds toResolve objectDefs resolved].
  destruct (round_resolves_all (record :: records) defs resolved0 [] 0 Hall Hrefs)
    as (resolved' & ->).
  simpl. by destruct (length records).
Qed.

(** *** What the first pass records, on raw values without [null] *)

Lemma setAdd_elem {A} (eqb : A -> A -> bool) (x y : A) (s : list A) :
  (forall z, eqb x z = true -> x = z) ->
  y ∈ setAdd eqb x s <-> y ∈ s \/ y = x.
Proof.
  intros Hsound. unfold setAdd. destruct (existsb (eqb x) s) eqn:E.
  - apply existsb_exists in E as (z & Hin & Hz). apply Hsound in Hz. subst z.
    apply list_elem_of_In in Hin. split; [by left|]. intros [? | ->]; done.
  - rewrite elem_of_app, list_elem_of_singleton. done.
Qed.

Lemma sameValueZero_sound a b : sameValueZero a b = true -> a = b.
Proof.
  destruct a, b; simpl; try done.
  - intros H. apply Bool.eqb_prop in H. by subst.
  - intros H. apply Z.eqb_eq in H. by subst.
  - intros H. apply String.eqb_eq in H. by subst.
Qed.

Lemma String_eqb_sound a b : String.eqb a b = true -> a = b.
Proof. apply String.eqb_eq. Qed.

Lemma records_refl dep : records dep dep [] [].
Proof.
  split; intros x; (split; [by left|]); intros [?|H]; [done| |done|];
    by apply elem_of_nil in H.
Qed.

Lemma records_trans dep dep1 dep2 ts1 ts2 ps1 ps2 :
  records dep dep1 ts1 ps1 -> records dep1 dep2 ts2 ps2 ->
  records dep dep2 (ts1 ++ ts2) (ps1 ++ ps2).
Proof.
  intros [Ht1 Hp1] [Ht2 Hp2]. split; intros x.
  - rewrite Ht2, Ht1, elem_of_app. tauto.
  - rewrite Hp2, Hp1, elem_of_app. tauto.
Qed.

Lemma analyzeDirectDependencies_records v :
  nullFree v = true ->
  forall dep, exists dep',
    analyzeDirectDependencies tryParse dep v = Ok dep' /\
    records dep dep' (typeTagsIn v) (protocolsIn tryParse v).
Proof.
  induction v as [ | |b|n|s|elems IH|props IH] using JsValue_tree_ind;
    intros Hfree dep; simpl in *; try done;
    try (exists dep; split; [done|apply records_refl]).
  - destruct (tryParse (JsString s)) as [uri|]; [|exists dep; split; [done|apply records_refl]].
    eexists. split; [done|]. split; intros x; simpl.
    + split; [by left|]. intros [?|H]; [done|]. by apply elem_of_nil in H.
    + rewrite setAdd_elem by apply String_eqb_sound.
      by rewrite list_elem_of_singleton.
  - revert dep. induction IH as [|v elems Hv _ IHl]; intros dep; simpl in *.
    + exists dep. split; [done|apply records_refl].
    + apply andb_prop in Hfree as [Hv' Hrest].
      destruct (Hv Hv' dep) as (dep1 & -> & Hrec1).
      destruct (IHl Hrest dep1) as (dep2 & -> & Hrec2).
      exists dep2. split; [done|]. by eapply records_trans.
  - set (dep1 := match getProp "_type" props with
                 | Some typeName => if notNull typeName then setTypeDependency dep typeName else dep
                 | None => dep
                 end).
    assert (records dep dep1
              (match getProp "_type" props with
               | Some typeTag => if notNull typeTag then [typeTag] else []
               | None => []
               end) []) as Hrec0.
    { unfold dep1. destruct (getProp "_type" props) as [t|]; [|apply records_refl].
      destruct (notNull t); [|apply records_refl].
      split; intros x; simpl.
      - rewrite setAdd_elem by apply sameValueZero_sound.
        by rewrite list_elem_of_singleton.
      - split; [by left|]. intros [?|H]; [done|]. by apply elem_of_nil in H. }
    clearbody dep1.
    cut (exists dep',
           (fix eachProp (dep0 : ObjectContextDependency) (props0 : list (string * JsValue))
              {struct props0} : Result ObjectContextDependency :=
              match props0 with
              | [] => Ok dep0
              | (_, v) :: rest =>
                  match analyzeDirectDependencies tryParse dep0 v with
                  | Ok dep' => eachProp dep' rest
                  | Err e => Err e
                  end
              end) dep1 props = Ok dep' /\
           records dep1 dep' (flat_map (fun kv => typeTagsIn kv.2) props)
                   (flat_map (fun kv => protocolsIn tryParse kv.2) props)).
    { intros (dep' & Hrun & Hrec). exists dep'. split; [done|].
      pose proof (records_trans _ _ _ _ _ _ _ Hrec0 Hrec) as Hall. done. }
    clear Hrec0. revert dep1.
    induction IH as [|[k v] props Hv _ IHl]; intros dep1; simpl in *.
    + exists dep1. split; [done|apply records_refl].
    + apply andb_prop in Hfree as [Hv' Hrest].
      destruct (Hv Hv' dep1) as (dep2 & -> & Hrec1).
      destruct (IHl Hrest dep2) as (dep3 & -> & Hrec2).
      exists dep3. split; [done|]. by eapply records_trans.
Qed.

Lemma checkTypes_cases this objectName typeDeps :
  (checkTypes this objectName typeDeps = Ok tt /\
   forall t, t ∈ typeDeps -> getTypeDef this t defaultMaxDepth <> None) \/
  (exists t, t ∈ typeDeps /\ getTypeDef this t defaultMaxDepth = None /\
             checkTypes this objectName typeDeps = Err (unrecognizedType t objectName)).
Proof.
  induction typeDeps as [|t rest IH]; simpl.
  - left. split; [done|]. intros t H. by apply elem_of_nil in H.
  - destruct (getTypeDef this t defaultMaxDepth) as [decl|] eqn:E.
    + destruct IH as [[-> Hall]|(t' & Hin & Hnone & ->)].
      * left. split; [done|]. intros t' Hin. apply elem_of_cons in Hin as [->|Hin].
        { by rewrite E. } { by apply Hall. }
      * right. exists t'. split; [by right|done].
    + right. exists t. split; [by left|done].
Qed.

Lemma checkProtocols_cases this objectName protocolDeps :
  (checkProtocols this objectName protocolDeps = Ok tt /\
   forall p, p ∈ protocolDeps -> getProviderDef this p defaultMaxDepth <> None) \/
  (exists p, p ∈ protocolDeps /\ getProviderDef this p defaultMaxDepth = None /\
             checkProtocols this objectName protocolDeps
               = Err (UnrecognizedProtocol p objectName)).
Proof.
  induction protocolDeps as [|p rest IH]; simpl.
  - left. split; [done|]. intros p H. by apply elem_of_nil in H.
  - destruct (getProviderDef this p defaultMaxDepth) as [decl|] eqn:E.
    + destruct IH as [[-> Hall]|(p' & Hin & Hnone & ->)].
      * left. split; [done|]. intros p' Hin. apply elem_of_cons in Hin as [->|Hin].
        { by rewrite E. } { by apply Hall. }
      * right. exists p'. split; [by right|done].
    + right. exists p. split; [by left|done].
Qed.

(** The first loop body on a declaration without [null]: it either accepts
    the declaration, which then refers to declared types and protocols only,
    or throws for an unrecognized type or protocol of that declaration. *)
Lemma analyzeOne_cases this def :
  nullFree (value def) = true ->
  (exists def', analyzeOne tryParse this def = Ok def' /\
                forall e, ~ Unrecognized tryParse this def e) \/
  (exists e, analyzeOne tryParse this def = Err (thrownFor e) /\
             Unrecognized tryParse this def e).
Proof.
  intros Hfree. unfold analyzeOne.
  destruct (analyzeDirectDependencies_records (value def) Hfree newDependency)
    as (dep & -> & Ht & Hp). simpl.
  destruct (checkTypes_cases this (name def) (typeDependencies dep))
    as [[-> Htypes]|(t & Hin & Hnone & ->)]; simpl.
  - destruct (checkProtocols_cases this (name def) (protocolDependencies dep))
      as [[-> Hprotocols]|(p & Hin & Hnone & ->)]; simpl.
    + left. eexists. split; [done|].
      intros e [t Hin Hnone|p Hin Hnone].
      * apply (Htypes t); [|done]. apply Ht. by right.
      * apply (Hprotocols p); [|done]. apply Hp. by right.
    + right. exists (UnrecognizedProtocol p (name def)). split; [done|].
      apply unrecognized_protocol; [|done].
      apply Hp in Hin as [Hin|Hin]; [by apply elem_of_nil in Hin|done].
  - right. exists (UnrecognizedType t (name def)). split; [done|].
    apply unrecognized_type; [|done].
    apply Ht in Hin as [Hin|Hin]; [by apply elem_of_nil in Hin|done].
Qed.

Lemma firstPass_cases this defs :
  Forall (fun def => nullFree (value def) = true) defs ->
  (exists defs', firstPass tryParse this defs = Ok defs' /\
                 forall def e, def ∈ defs -> ~ Unrecognized tryParse this def e) \/
  (exists def e, def ∈ defs /\ Unrecognized tryParse this def e /\
                 firstPass tryParse this defs = Err (thrownFor e)).
Proof.
  induction 1 as [|def rest Hfree _ IH]; simpl.
  - left. exists []. split; [done|]. intros def e H. by apply elem_of_nil in H.
  - destruct (analyzeOne_cases this def Hfree) as [(def' & -> & Hok)|(e & -> & Hbad)]; simpl.
    + destruct IH as [(rest' & -> & Hrest)|(def1 & e & Hin & Hbad & ->)]; simpl.
      * left. eexists. split; [done|]. intros d e Hin.
        apply elem_of_cons in Hin as [->|Hin]; [apply Hok|by apply Hrest].
      * right. exists def1, e. split; [by right|done].
    + right. exists def, e. split; [by left|done].
Qed.

(** On raw values without [null]: when a declaration refers to a type or
    a protocol that no definition of the chain declares, the construction
    with dependency analysis fails for such a declaration, with the
    unrecognized-type or unrecognized-protocol error that names the type or
    protocol and the named object (a [TypeError] in its place when the type
    does not convert to a string); when no declaration does, the
    construction succeeds. *)
Lemma unrecognized_dependency_fails_construction
  parentDefinition typeDefs providerDefs objectDefs :
  let this := MkScopedObjectContextDef parentDefinition typeDefs providerDefs objectDefs in
  Forall (fun def => nullFree (value def) = true) objectDefs ->
  ((exists def e, def ∈ objectDefs /\ Unrecognized tryParse this def e) ->
   exists def e, def ∈ objectDefs /\ Unrecognized tryParse this def e /\
     newScopedObjectContextDef tryParse parentDefinition typeDefs providerDefs objectDefs true
       = Some (Err (thrownFor e))) /\
  ((forall def e, def ∈ objectDefs -> ~ Unrecognized tryParse this def e) ->
   exists d,
     newScopedObjectContextDef tryParse parentDefinition typeDefs providerDefs objectDefs true
       = Some (Ok d)).
Proof.
  intros this Hfree. unfold newScopedObjectContextDef. fold this.
  rewrite analyzeNamedObjectDependencies_firstPass. simpl.
  destruct (firstPass_cases this objectDefs Hfree)
    as [(defs' & -> & Hnone)|(def & e & Hin & Hbad & ->)].
  - split; [|by eexists]. intros (def & e & Hin & Hbad). by destruct (Hnone def e Hin).
  - split; [by exists def, e|]. intros Hnone. by destruct (Hnone def e Hin).
Qed.

(** The constructor always returns or throws: the loop of the second pass
    never runs out of rounds. *)
Lemma construction_terminates
  parentDefinition typeDefs providerDefs objectDefs enableDependencyAnalysis :
  exists outcome,
    newScopedObjectContextDef tryParse parentDefinition typeDefs providerDefs objectDefs
      enableDependencyAnalysis = Some outcome.
Proof.
  unfold newScopedObjectContextDef. destruct enableDependencyAnalysis; [|by eexists].
  rewrite analyzeNamedObjectDependencies_firstPass.
  destruct (firstPass _ _ _); by eexists.
Qed.

(** A construction that succeeds leaves every declaration with an empty set
    of named-object dependencies, and never fails for unresolved ones. *)
Lemma construction_records_no_object_dependency
  parentDefinition typeDefs providerDefs objectDefs outcome :
  newScopedObjectContextDef tryParse parentDefinition typeDefs providerDefs objectDefs true
    = Some outcome ->
  match outcome with
  | Ok d => Forall analysed (namedObjectDefs d)
  | Err e => forall objectNames, e <> UnresolvedDependencies objectNames
  end.
Proof.
  unfold newScopedObjectContextDef. rewrite analyzeNamedObjectDependencies_firstPass.
  destruct (firstPass tryParse _ _) as [defs|e] eqn:E; intros Hout;
    injection Hout as <-.
  - simpl in *. by eapply firstPass_analysed.
  - intros names ->. revert E. simpl.
    generalize (MkScopedObjectContextDef parentDefinition typeDefs providerDefs objectDefs).
    intros this. induction objectDefs as [|def rest IH]; simpl; [done|].
    unfold analyzeOne at 1.
    destruct (analyzeDirectDependencies tryParse newDependency (value def)) as [dep|e0] eqn:Ea;
      simpl.
    + destruct (checkTypes_cases this (name def) (typeDependencies dep))
        as [[-> _]|(t & _ & _ & ->)]; simpl;
        [|by unfold unrecognizedType; destruct (printable t)].
      destruct (checkProtocols_cases this (name def) (protocolDependencies dep))
        as [[-> _]|(p & _ & _ & ->)]; simpl; [|done].
      destruct (firstPass tryParse this rest); simpl; [done|]. intros [= ->]. by apply IH.
    + intros [= ->]. clear IH. revert Ea. generalize newDependency.
      induction (value def) as [ | |b|n|s|elems IHv|props IHv] using JsValue_tree_ind;
        intros dep0; simpl; try done.
      * by destruct (tryParse (JsString s)).
      * revert dep0. induction IHv as [|v elems Hv _ IHl]; intros dep0; [done|].
        destruct (analyzeDirectDependencies tryParse dep0 v) eqn:Ev; [apply IHl|].
        intros [= ->]. by eapply Hv.
      * generalize (match getProp "_type" props with
                    | Some typeName =>
                        if notNull typeName then setTypeDependency dep0 typeName else dep0
                    | None => dep0
                    end).
        induction IHv as [|[k v] props Hv _ IHl]; intros dep1; [done|].
        destruct (analyzeDirectDependencies tryParse dep1 v) eqn:Ev; [apply IHl|].
        intros [= ->]. by eapply Hv.
Qed.

(** C2, on declarations that depend on each other.  No construction with
    dependency analysis ever fails for a named-object dependency, cyclic or
    not.  On A and B, where the dependency set of A holds B and that of B
    holds A, it succeeds: the first pass starts each declaration from an
    empty dependency set and never records a named object, and the second
    pass on its own, started from the cyclic sets, resolves both records in
    its first round and reports nothing. *)
Theorem cyclic_declarations_are_accepted :
  (forall parentDefinition typeDefs providerDefs objectDefs objectNames,
     newScopedObjectContextDef tryParse parentDefinition typeDefs providerDefs objectDefs true
       <> Some (Err (UnresolvedDependencies objectNames))) /\
  newScopedObjectContextDef tryParse None [] [] cyclicDecls true
    = Some (Ok (MkScopedObjectContextDef None [] []
                  [declare "A" 1 []; declare "B" 2 []])) /\
  secondPass cyclicDecls = Some (Ok cyclicDecls).
Proof.
  split; [|split; reflexivity].
  intros parent tds pds ods names Hout.
  by apply construction_records_no_object_dependency in Hout; simpl in Hout;
    destruct (Hout names).
Qed.

(** C3, on a chain of declarations.  Every construction with dependency
    analysis that succeeds leaves each declaration with an empty set of
    named-object dependencies.  On A, B, C and D, with A depending on B, B
    on C and C on D, the construction succeeds but the set computed for A is
    empty; and the second pass on its own, started from these direct
    dependencies, leaves the set of A at B, without C and D. *)
Theorem chained_declarations_get_no_closure :
  (forall parentDefinition typeDefs providerDefs objectDefs d,
     newScopedObjectContextDef tryParse parentDefinition typeDefs providerDefs objectDefs true
       = Some (Ok d) ->
     Forall analysed (namedObjectDefs d)) /\
  newScopedObjectContextDef tryParse None [] [] chainedDecls true
    = Some (Ok (MkScopedObjectContextDef None [] []
                  [declare "A" 1 []; declare "B" 2 []; declare "C" 3 []; declare "D" 4 []])) /\
  secondPass chainedDecls = Some (Ok chainedDecls) /\
  (objectDependencies <$> (chainedDecls !! 0%nat ≫= dependencies)) = Some ["B"].
Proof.
  split; [|repeat split; reflexivity].
  intros parent tds pds ods d Hout.
  by apply construction_records_no_object_dependency in Hout.
Qed.

(** C6, on a raw value with a [null] field.  The declaration refers to the
    type T, which nothing declares; [typeof null] is ['object'], so the walk
    over the raw value throws on the field before any type is checked, and
    the construction fails with that error, which names neither the type nor
    the named object. *)
Theorem null_field_hides_unrecognized_type :
  JsString "T" ∈ typeTagsIn (value nullFieldDecl) /\
  getTypeDef (MkScopedObjectContextDef None [] [] [nullFieldDecl]) (JsString "T")
    defaultMaxDepth = None /\
  newScopedObjectContextDef tryParse None [] [] [nullFieldDecl] true
    = Some (Err (TypeError "Cannot read property '_type' of null")).
Proof.
  split; [apply list_elem_of_here|]. split; [reflexivity|].
  unfold newScopedObjectContextDef, analyzeNamedObjectDependencies. simpl.
  unfold analyzeOne. simpl. by destruct (tryParse (JsString "T")).
Qed.

End Analysis.

(** * Further properties *)

(** ** Selection of builders and resolvers *)

Lemma factoryFor_nearest scopes typeTag factory :
  factoryFor scopes typeTag = Some factory <-> nearestFactory scopes typeTag factory.
Proof.
  induction scopes as [|scope rest IH]; simpl.
  - split; [done|]. intros (i & sc & Hi & _). by destruct i.
  - destruct (_objectFactory scope) as [f|] eqn:Hf.
    + destruct (factory_supports f typeTag) eqn:Hs.
      * split.
        { intros [= <-]. exists 0%nat, scope. repeat split; try done.
          intros j sc' f' Hj. lia. }
        { intros (i & sc & Hi & Hfac & Hsup & Hbefore). destruct i as [|i].
          - injection Hi as <-. congruence.
          - specialize (Hbefore 0%nat scope f ltac:(lia) eq_refl Hf). congruence. }
      * rewrite IH. split.
        { intros (i & sc & Hi & Hfac & Hsup & Hbefore). exists (S i), sc.
          repeat split; try done. intros [|j] sc' f' Hj Hl Hf'; simpl in Hl.
          - injection Hl as <-. congruence.
          - apply (Hbefore j sc' f'); [lia|done|done]. }
        { intros (i & sc & Hi & Hfac & Hsup & Hbefore). destruct i as [|i].
          - injection Hi as <-. congruence.
          - exists i, sc. repeat split; try done. intros j sc' f' Hj Hl Hf'.
            apply (Hbefore (S j) sc' f'); [lia|done|done]. }
    + rewrite IH. split.
      * intros (i & sc & Hi & Hfac & Hsup & Hbefore). exists (S i), sc.
        repeat split; try done. intros [|j] sc' f' Hj Hl Hf'; simpl in Hl.
        { injection Hl as <-. congruence. }
        { apply (Hbefore j sc' f'); [lia|done|done]. }
      * intros (i & sc & Hi & Hfac & Hsup & Hbefore). destruct i as [|i].
        { injection Hi as <-. congruence. }
        { exists i, sc. repeat split; try done. intros j sc' f' Hj Hl Hf'.
          apply (Hbefore (S j) sc' f'); [lia|done|done]. }
Qed.

Lemma providerFor_nearest scopes uri provider :
  providerFor scopes uri = Some provider
  <-> nearestProvider scopes (uri_protocol uri) provider.
Proof.
  induction scopes as [|scope rest IH]; simpl.
  - split; [done|]. intros (i & sc & Hi & _). by destruct i.
  - destruct (_objectProvider scope) as [p|] eqn:Hp.
    + destruct (provider_supports p (uri_protocol uri)) eqn:Hs.
      * split.
        { intros [= <-]. exists 0%nat, scope. repeat split; try done.
          intros j sc' p' Hj. lia. }
        { intros (i & sc & Hi & Hpro & Hsup & Hbefore). destruct i as [|i].
          - injection Hi as <-. congruence.
          - specialize (Hbefore 0%nat scope p ltac:(lia) eq_refl Hp). congruence. }
      * rewrite IH. split.
        { intros (i & sc & Hi & Hpro & Hsup & Hbefore). exists (S i), sc.
          repeat split; try done. intros [|j] sc' p' Hj Hl Hp'; simpl in Hl.
          - injection Hl as <-. congruence.
          - apply (Hbefore j sc' p'); [lia|done|done]. }
        { intros (i & sc & Hi & Hpro & Hsup & Hbefore). destruct i as [|i].
          - injection Hi as <-. congruence.
          - exists i, sc. repeat split; try done. intros j sc' p' Hj Hl Hp'.
            apply (Hbefore (S j) sc' p'); [lia|done|done]. }
    + rewrite IH. split.
      * intros (i & sc & Hi & Hpro & Hsup & Hbefore). exists (S i), sc.
        repeat split; try done. intros [|j] sc' p' Hj Hl Hp'; simpl in Hl.
        { injection Hl as <-. congruence. }
        { apply (Hbefore j sc' p'); [lia|done|done]. }
      * intros (i & sc & Hi & Hpro & Hsup & Hbefore). destruct i as [|i].
        { injection Hi as <-. congruence. }
        { exists i, sc. repeat split; try done. intros j sc' p' Hj Hl Hp'.
          apply (Hbefore (S j) sc' p'); [lia|done|done]. }
Qed.

Lemma factoryFor_none_iff scopes typeTag :
  factoryFor scopes typeTag = None <-> noFactorySupports scopes typeTag.
Proof.
  split; [|apply factoryFor_none].
  induction scopes as [|scope rest IH]; simpl; intros Hnone sc f Hin Hf.
  - by apply elem_of_nil in Hin.
  - apply elem_of_cons in Hin as [->|Hin].
    + rewrite Hf in Hnone. by destruct (factory_supports f typeTag).
    + destruct (_objectFactory scope) as [f0|]; [|by apply (IH Hnone sc f)].
      destruct (factory_supports f0 typeTag); [done|by apply (IH Hnone sc f)].
Qed.

Lemma providerFor_none_iff scopes uri :
  providerFor scopes uri = None <-> noProviderSupports scopes (uri_protocol uri).
Proof.
  split; [|apply providerFor_none].
  induction scopes as [|scope rest IH]; simpl; intros Hnone sc p Hin Hp.
  - by apply elem_of_nil in Hin.
  - apply elem_of_cons in Hin as [->|Hin].
    + rewrite Hp in Hnone. by destruct (provider_supports p (uri_protocol uri)).
    + destruct (_objectProvider scope) as [p0|]; [|by apply (IH Hnone sc p)].
      destruct (provider_supports p0 (uri_protocol uri)); [done|by apply (IH Hnone sc p)].
Qed.

(** X1.  [selectFactory] returns a builder catalog exactly when it is the
    catalog of the first scope, from the requesting scope to the root, that
    has one supporting the type; it throws exactly when no scope has one:
    the error that names the type and the input when the type converts to a
    string, the [TypeError] of the conversion when it does not. *)
Theorem selectFactory_nearest_first
  (this : ScopedObjectContext) (ancestors : list ScopedObjectContext)
  (typeName input : JsValue) :
  (forall factory,
     selectFactory this ancestors typeName input = Ok factory
     <-> nearestFactory (this :: ancestors) typeName factory) /\
  (forall e,
     selectFactory this ancestors typeName input = Err e
     <-> e = (if printable typeName then UnsupportedType typeName input
              else TypeError "Cannot convert object to primitive value") /\
         noFactorySupports (this :: ancestors) typeName).
Proof.
  unfold selectFactory, unsupportedType. split.
  - intros factory. rewrite <- factoryFor_nearest.
    destruct (factoryFor (this :: ancestors) typeName); split; congruence.
  - intros e. rewrite <- factoryFor_none_iff.
    destruct (factoryFor (this :: ancestors) typeName); split.
    + done.
    + by intros [_ ?].
    + by intros [= <-].
    + by intros [-> _].
Qed.

(** X2.  [selectProvider] returns a resolver catalog exactly when it is the
    catalog of the first scope, from the requesting scope to the root, that
    has one supporting the protocol of the reference; it throws, naming the
    protocol and the input, exactly when no scope has one. *)
Theorem selectProvider_nearest_first
  (this : ScopedObjectContext) (ancestors : list ScopedObjectContext)
  (uri : Uri) (input : JsValue) :
  (forall provider,
     selectProvider this ancestors uri input = Ok provider
     <-> nearestProvider (this :: ancestors) (uri_protocol uri) provider) /\
  (forall e,
     selectProvider this ancestors uri input = Err e
     <-> e = UnsupportedProtocol (uri_protocol uri) input /\
         noProviderSupports (this :: ancestors) (uri_protocol uri)).
Proof.
  unfold selectProvider. split.
  - intros provider. rewrite <- providerFor_nearest.
    destruct (providerFor (this :: ancestors) uri); split; congruence.
  - intros e. rewrite <- providerFor_none_iff.
    destruct (providerFor (this :: ancestors) uri); split.
    + done.
    + by intros [_ ?].
    + by intros [= <-].
    + by intros [-> _].
Qed.

(** ** What [create] hands to the catalogs *)

Section CreateDispatch.

Variable tryParse : JsValue -> option Uri.

Lemma everyTryParse_Forall2 elems uris :
  Forall2 (fun elem uri => tryParse elem = Some uri) elems uris ->
  everyTryParse tryParse elems = Some uris.
Proof.
  induction 1 as [|elem uri elems uris Hhead _ IH]; simpl; [done|].
  by rewrite Hhead, IH.
Qed.

(** X3.  An object with a [_type] of its own and no [hasOwnProperty] of
    its own, and a sequence whose first element is such an object, go to the
    builder catalog of the nearest scope that supports the type: [create]
    returns what that catalog makes of the whole input, the whole sequence
    included, whatever follows the first element. *)
Theorem create_tagged_goes_to_nearest_factory
  (this : ScopedObjectContext) (ancestors : list ScopedObjectContext)
  (props : list (string * JsValue)) (typeTag : JsValue) (factory : ObjectFactory)
  (st : Store) :
  getProp "hasOwnProperty" props = None ->
  getProp "_type" props = Some typeTag ->
  nearestFactory (this :: ancestors) typeTag factory ->
  create tryParse this ancestors (JsObject props) st
    = factory_create factory (JsObject props) st /\
  forall rest,
    create tryParse this ancestors (JsArray (JsObject props :: rest)) st
      = factory_create factory (JsArray (JsObject props :: rest)) st.
Proof.
  intros Hcall Htag Hnear. apply factoryFor_nearest in Hnear.
  split; [|intros rest]; simpl; unfold createFromObject, callsHasOwnProperty;
    rewrite Hcall, Htag; unfold createTagged, selectFactory; by rewrite Hnear.
Qed.

(** X4.  A string that parses as a reference goes, parsed, to the resolver
    catalog of the nearest scope that supports its protocol.  A sequence
    that starts with such a string and whose elements all parse goes to the
    catalog selected by the first reference alone, with all the parsed
    references in order; the protocols of the other references are not
    looked at. *)
Theorem create_reference_goes_to_nearest_provider
  (this : ScopedObjectContext) (ancestors : list ScopedObjectContext)
  (s : string) (uri : Uri) (provider : ObjectProvider) (st : Store) :
  tryParse (JsString s) = Some uri ->
  nearestProvider (this :: ancestors) (uri_protocol uri) provider ->
  create tryParse this ancestors (JsString s) st
    = provider_provide provider (inl uri) st /\
  forall rest uris,
    Forall2 (fun elem uri' => tryParse elem = Some uri') rest uris ->
    create tryParse this ancestors (JsArray (JsString s :: rest)) st
      = provider_provide provider (inr (uri :: uris)) st.
Proof.
  intros Huri Hnear. apply providerFor_nearest in Hnear. split.
  - simpl. rewrite Huri. unfold selectProvider. by rewrite Hnear.
  - intros rest uris Hall. simpl. rewrite Huri.
    rewrite (everyTryParse_Forall2 _ _ Hall). unfold selectProvider. by rewrite Hnear.
Qed.

Lemma factoryFor_in scopes typeTag factory :
  factoryFor scopes typeTag = Some factory ->
  exists scope, scope ∈ scopes /\ _objectFactory scope = Some factory.
Proof.
  intros H. apply factoryFor_nearest in H as (i & scope & Hi & Hf & _).
  exists scope. split; [|done]. eapply list_elem_of_lookup_2; eauto.
Qed.

Lemma providerFor_in scopes uri provider :
  providerFor scopes uri = Some provider ->
  exists scope, scope ∈ scopes /\ _objectProvider scope = Some provider.
Proof.
  intros H. apply providerFor_nearest in H as (i & scope & Hi & Hp & _).
  exists scope. split; [|done]. eapply list_elem_of_lookup_2; eauto.
Qed.

Lemma createTagged_preserves_store this ancestors typeTag input st :
  storePreserving (this :: ancestors) ->
  (createTagged this ancestors typeTag input st).2 = st.
Proof.
  intros Hpure. unfold createTagged, selectFactory.
  destruct (factoryFor (this :: ancestors) typeTag) as [f|] eqn:Hf; [|done].
  apply factoryFor_in in Hf as (scope & Hin & Hf).
  by apply (proj1 (Hpure scope Hin) f).
Qed.

Lemma provide_preserves_store this ancestors uri input uris st :
  storePreserving (this :: ancestors) ->
  (match selectProvider this ancestors uri input with
   | Ok provider => provider_provide provider uris st
   | Err e => (Err e, st)
   end).2 = st.
Proof.
  intros Hpure. unfold selectProvider.
  destruct (providerFor (this :: ancestors) uri) as [p|] eqn:Hp; [|done].
  apply providerFor_in in Hp as (scope & Hin & Hp).
  by apply (proj2 (Hpure scope Hin) p).
Qed.

Lemma create_keeps_store this ancestors input st :
  storePreserving (this :: ancestors) ->
  (create tryParse this ancestors input st).2 = st.
Proof.
  intros Hpure. destruct input as [ | |b|n|s|elems|props]; simpl; try done.
  - destruct (tryParse (JsString s)); [|done]. by apply provide_preserves_store.
  - destruct elems as [|first rest]; [done|].
    destruct first as [ | |b|n|s|elems|props]; try done.
    + destruct (everyTryParse tryParse (JsString s :: rest)) as [[|uri0 uris]|]; try done.
      by apply provide_preserves_store.
    + unfold createFromObject. destruct (callsHasOwnProperty props); [|done].
      destruct (getProp "_type" props); [|done]. by apply createTagged_preserves_store.
  - unfold createFromObject. destruct (callsHasOwnProperty props); [|done].
    destruct (getProp "_type" props); [|done]. by apply createTagged_preserves_store.
Qed.

(** X6.  [create] has no effect of its own on the registries: when the
    builders and resolvers of the chain leave the store as they find it, so
    does [create], on every input, whether it returns or throws. *)
Theorem create_preserves_store
  (this : ScopedObjectContext) (ancestors : list ScopedObjectContext)
  (input : JsValue) (st : Store) :
  storePreserving (this :: ancestors) ->
  (create tryParse this ancestors input st).2 = st.
Proof.
  intros Hpure. by apply create_keeps_store.
Qed.

End CreateDispatch.

Lemma application_builds_numbers :
  nearestFactory [requestScope; applicationScope; globalScope] (JsString "Number")
    (numberFactory "application").
Proof.
  exists 1%nat, applicationScope. repeat split.
  intros [|j] sc f Hj Hl Hf; [|lia].
  injection Hl as <-. injection Hf as <-. reflexivity.
Defined.

Lemma create_tagged_witness :
  create referenceParse requestScope [applicationScope; globalScope] baseValue store0
    = (Ok (JsObject [("builtBy", JsString "application"); ("from", baseValue)]), store0).
Proof.
  apply (proj1 (create_tagged_goes_to_nearest_factory referenceParse requestScope
                  [applicationScope; globalScope]
                  [("_type", JsString "Number"); ("value", JsNumber 1)] (JsString "Number")
                  (numberFactory "application") store0 eq_refl eq_refl
                  application_builds_numbers)).
Defined.

Lemma host_resolves_files :
  nearestProvider [requestScope; applicationScope; hostScope] "file" fileProvider.
Proof.
  exists 2%nat, hostScope. repeat split.
  intros [|[|j]] sc p Hj Hl Hp; [| |lia];
    injection Hl as <-; injection Hp as <-; reflexivity.
Defined.

(** The second reference names a protocol no scope supports; the first one
    decides. *)
Lemma create_reference_witness :
  create referenceParse requestScope [applicationScope; hostScope]
    (JsArray [JsString "file:a"; JsString "other:b"]) store0
    = (Ok (JsArray [JsString "a"; JsString "b"]), store0).
Proof.
  apply (proj2 (create_reference_goes_to_nearest_provider referenceParse requestScope
                  [applicationScope; hostScope] "file:a"
                  {| uri_protocol := "file"; uri_path := "a" |} fileProvider store0
                  eq_refl host_resolves_files)
           [JsString "other:b"] [{| uri_protocol := "other"; uri_path := "b" |}]).
  repeat constructor.
Defined.

Lemma chain_preserves_store :
  storePreserving [requestScope; applicationScope; hostScope].
Proof.
  intros scope Hin.
  repeat (apply elem_of_cons in Hin as [->|Hin]); [| | |by apply elem_of_nil in Hin];
    split; intros c Hc; injection Hc as <-; reflexivity.
Defined.

Lemma create_preserves_store_witness :
  (create referenceParse requestScope [applicationScope; hostScope]
     (JsString "file:a") store0).2 = store0.
Proof.
  apply (create_preserves_store referenceParse requestScope [applicationScope; hostScope]
           (JsString "file:a") store0 chain_preserves_store).
Defined.

(** A sequence of strings of which the second is no reference. *)
Lemma create_passes_through_witness :
  create referenceParse requestScope [applicationScope; hostScope]
    (JsArray [JsString "file:a"; JsString "plain"]) store0
    = (Ok (JsArray [JsString "file:a"; JsString "plain"]), store0).
Proof.
  apply create_passes_through.
  apply (passed_unparsed_sequence _ _ _ (JsString "plain")); [|..|reflexivity].
  - by repeat constructor.
  - apply list_elem_of_further, list_elem_of_here.
Defined.

(** ** [get] and [forEach] on the same chain *)

Lemma registryGet_insert_ne r o nm :
  name (def o) <> nm -> registryGet (registryInsert r o) nm = registryGet r nm.
Proof.
  intros Hne. unfold registryGet. induction r as [|held rest IH]; simpl.
  - apply String.eqb_neq in Hne. by rewrite Hne.
  - destruct (String.eqb (name (def held)) (name (def o))) eqn:E; simpl.
    + apply String.eqb_eq in E. apply String.eqb_neq in Hne.
      rewrite Hne. rewrite E. by rewrite Hne.
    + destruct (String.eqb (name (def held)) nm); [done|apply IH].
Qed.

Lemma firstHit_nearestObject rs nm : forall d,
  snd <$> firstHit rs nm d = nearestObject rs nm.
Proof.
  induction rs as [|r rs IH]; intros d; simpl; [done|].
  destruct (registryGet r nm); [done|apply IH].
Qed.

Lemma nearestObject_None rs nm :
  nearestObject rs nm = None <-> nm ∉ namesOf (concat rs).
Proof. rewrite nearestObject_concat. apply registryGet_None. Qed.

Lemma nearestObject_Some rs nm o :
  nearestObject rs nm = Some o -> name (def o) = nm.
Proof.
  rewrite nearestObject_concat. intros H. by apply registryGet_Some in H as [_ ?].
Qed.

Lemma forEach_names this ancestors st nm :
  nm ∈ namesOf (forEach this ancestors st)
  <-> nm ∈ namesOf (concat (chainRegistries (this :: ancestors) (registries st))).
Proof.
  destruct (forEachScope_spec (this :: ancestors) ∅ (registries st))
    as (Hsub & _ & _ & Hall).
  split.
  - intros Hin. apply elem_of_namesOf in Hin as (o & Ho & <-).
    apply elem_of_namesOf. exists o. split; [|done]. eapply elem_of_sublist; eauto.
  - intros Hin. apply Hall; [done|set_solver].
Qed.

Lemma forEach_object this ancestors st o :
  o ∈ forEach this ancestors st ->
  nearestObject (chainRegistries (this :: ancestors) (registries st)) (name (def o)) = Some o.
Proof.
  destruct (forEachScope_spec (this :: ancestors) ∅ (registries st))
    as (_ & _ & Hcalls & _).
  intros Ho. by apply Hcalls.
Qed.

Lemma firstOccurrences_ext objects : forall seen1 seen2,
  (forall x, x ∈ seen1 <-> x ∈ seen2) ->
  firstOccurrences seen1 objects = firstOccurrences seen2 objects.
Proof.
  induction objects as [|o rest IH]; intros seen1 seen2 Heq; simpl; [done|].
  destruct (decide (name (def o) ∈ seen1)) as [H1|H1];
    destruct (decide (name (def o) ∈ seen2)) as [H2|H2].
  - by apply IH.
  - by apply Heq in H1.
  - by apply Heq in H2.
  - f_equal. apply IH. intros x. rewrite !elem_of_cons, Heq. done.
Qed.

Lemma firstOccurrences_app l1 : forall seen seen' l2,
  (forall x, x ∈ seen' <-> x ∈ seen \/ x ∈ namesOf l1) ->
  firstOccurrences seen (l1 ++ l2)
    = firstOccurrences seen l1 ++ firstOccurrences seen' l2.
Proof.
  induction l1 as [|o rest IH]; intros seen seen' l2 Hseen; simpl.
  - apply firstOccurrences_ext. intros x. rewrite Hseen. split; [by left|].
    intros [?|H]; [done|]. by apply elem_of_nil in H.
  - destruct (decide (name (def o) ∈ seen)) as [Hin|Hout].
    + apply IH. intros x. rewrite Hseen. unfold namesOf; simpl. rewrite elem_of_cons.
      split; [|tauto]. intros [?|[->|?]]; auto.
    + simpl. f_equal. apply IH. intros x. rewrite Hseen. unfold namesOf; simpl.
      rewrite !elem_of_cons. tauto.
Qed.

Lemma firstOccurrences_distinct objects : forall seen,
  NoDup (namesOf objects) ->
  (forall x, x ∈ namesOf objects -> x ∉ seen) ->
  firstOccurrences seen objects = objects.
Proof.
  induction objects as [|o rest IH]; intros seen Hnd Hfresh; simpl; [done|].
  unfold namesOf in Hnd; simpl in Hnd. apply NoDup_cons in Hnd as [Hhead Hnd].
  destruct (decide (name (def o) ∈ seen)) as [Hin|_].
  - exfalso. apply (Hfresh (name (def o))); [by left|done].
  - f_equal. apply IH; [done|]. intros x Hx Hseen.
    apply elem_of_cons in Hseen as [->|Hseen]; [done|].
    apply (Hfresh x); [by right|done].
Qed.

Lemma forEachObject_firstOccurrences objects : forall visited seen visited' calls,
  (forall x, x ∈ visited <-> x ∈ seen) ->
  forEachObject visited objects = (visited', calls) ->
  calls = firstOccurrences seen objects.
Proof.
  induction objects as [|o rest IH]; intros visited seen visited' calls Heq Hrun;
    simpl in *.
  - by injection Hrun as _ <-.
  - destruct (decide (name (def o) ∈ visited)) as [Hin|Hout];
      destruct (decide (name (def o) ∈ seen)) as [Hin'|Hout'].
    + by eapply IH.
    + by apply Heq in Hin.
    + by apply Heq in Hin'.
    + destruct (forEachObject ({[name (def o)]} ∪ visited) rest) as [v1 calls1] eqn:Hrest.
      injection Hrun as _ <-. f_equal. eapply IH; [|done].
      intros x. rewrite elem_of_union, elem_of_singleton, elem_of_cons, Heq. done.
Qed.

Lemma forEachScope_firstOccurrences scopes : forall visited seen regs,
  (forall x, x ∈ visited <-> x ∈ seen) ->
  forEachScope visited scopes regs
    = firstOccurrences seen (concat (chainRegistries scopes regs)).
Proof.
  induction scopes as [|s parents IH]; intros visited seen regs Heq; simpl; [done|].
  destruct (forEachObject visited (hd [] regs)) as [v1 calls1] eqn:Hhere.
  destruct (forEachObject_spec _ _ _ _ Hhere) as (Hv & _).
  rewrite (forEachObject_firstOccurrences _ _ _ _ _ Heq Hhere).
  rewrite (firstOccurrences_app _ seen (elements v1)).
  - f_equal. apply IH. intros x. by rewrite elem_of_elements.
  - intros x. by rewrite elem_of_elements, Hv, Heq.
Qed.

(** X11.  [forEach] hands to its callback, in this order, the objects of
    the registries of the chain, nearest scope first, except those whose name
    came up before; when no two objects of the chain share a name it hands
    over every object of every registry. *)
Theorem forEach_keeps_first_occurrences
  (this : ScopedObjectContext) (ancestors : list ScopedObjectContext) (st : Store) :
  let held := concat (chainRegistries (this :: ancestors) (registries st)) in
  forEach this ancestors st = firstOccurrences [] held /\
  (NoDup (namesOf held) -> forEach this ancestors st = held).
Proof.
  intros held.
  assert (forEach this ancestors st = firstOccurrences [] held) as Heq.
  { unfold forEach. apply forEachScope_firstOccurrences. intros x. set_solver. }
  split; [done|]. intros Hnd. rewrite Heq. apply firstOccurrences_distinct; [done|].
  intros x _ H. by apply elem_of_nil in H.
Qed.

Lemma forEach_distinct_witness :
  forEach requestScope [applicationScope; globalScope]
    {| nextIdentity := 2; registries := [[]; [declareObject]; [globalBase]] |}
  = [declareObject; globalBase].
Proof.
  apply (proj2 (forEach_keeps_first_occurrences requestScope [applicationScope; globalScope]
                  {| nextIdentity := 2; registries := [[]; [declareObject]; [globalBase]] |})).
  repeat constructor; set_solver.
Defined.

Section GetProperties.

Variable tryParse : JsValue -> option Uri.

Lemma nearestObject_chain this ancestors regs nm :
  nearestObject (chainRegistries (this :: ancestors) regs) nm =
  match registryGet (hd [] regs) nm with
  | Some o => Some o
  | None => snd <$> firstHit (chainRegistries ancestors (tl regs)) nm 1
  end.
Proof. simpl. destruct (registryGet (hd [] regs) nm); [done|]. by rewrite firstHit_nearestObject. Qed.

Lemma firstHit_name rs nm d k o : firstHit rs nm d = Some (k, o) -> name (def o) = nm.
Proof.
  intros H. apply (nearestObject_Some rs). rewrite <- (firstHit_nearestObject rs nm d).
  by rewrite H.
Qed.

(** X7.  A call of [get] that returns, with an object or with not-found,
    settles the answer: the same call on the store it leaves returns the same
    result and changes nothing more, so an inherited object is rebuilt at
    most once per requesting scope. *)
Theorem get_settles
  (this : ScopedObjectContext) (ancestors : list ScopedObjectContext)
  (objectName : string) (st st' : Store) (r : option NamedObject) :
  get tryParse this ancestors objectName st = (Ok r, st') ->
  get tryParse this ancestors objectName st' = (Ok r, st').
Proof.
  intros Hget. pose proof Hget as Hrun. rewrite get_cases in Hrun.
  destruct (registryGet (hd [] (registries st)) objectName) as [o|] eqn:Hlocal.
  { injection Hrun as <- <-. done. }
  destruct (firstHit (chainRegistries ancestors (tl (registries st))) objectName 1)
    as [[k o]|] eqn:Hhit; [|by injection Hrun as <- <-].
  unfold inherit in Hrun.
  destruct (needsUpdate this ancestors o (Z.of_nat k)) as [[|]|] eqn:Hneeds;
    [| by injection Hrun as <- <- |done].
  destruct (create tryParse this ancestors (value (def o)) st) as [[v|e] st1]; [|done].
  injection Hrun as <- <-. rewrite get_cases. simpl.
  replace objectName with (name (def (rebuilt this o v st1)))
    by (simpl; by eapply firstHit_name).
  by rewrite registryGet_insert.
Qed.

(** X8.  [get] writes to the registry of the requesting scope only, and
    only under the name asked for: when the builders and resolvers of the
    chain leave the store as they find it, a call of [get], whatever its
    outcome, leaves the registries of all ancestors and every other name of
    the requesting scope as they were, and allocates at most one object. *)
Theorem get_touches_own_entry_only
  (this : ScopedObjectContext) (ancestors : list ScopedObjectContext)
  (objectName : string) (st st' : Store) (res : Result (option NamedObject)) :
  storePreserving (this :: ancestors) ->
  get tryParse this ancestors objectName st = (res, st') ->
  tl (registries st') = tl (registries st) /\
  (forall other, other <> objectName ->
     registryGet (hd [] (registries st')) other
       = registryGet (hd [] (registries st)) other) /\
  (nextIdentity st' = nextIdentity st \/ nextIdentity st' = S (nextIdentity st)).
Proof.
  intros Hpure Hrun. rewrite get_cases in Hrun.
  destruct (registryGet (hd [] (registries st)) objectName) as [o|] eqn:Hlocal.
  { injection Hrun as <- <-. auto. }
  destruct (firstHit (chainRegistries ancestors (tl (registries st))) objectName 1)
    as [[k o]|] eqn:Hhit; [|injection Hrun as <- <-; auto].
  unfold inherit in Hrun.
  destruct (needsUpdate this ancestors o (Z.of_nat k)) as [[|]|] eqn:Hneeds;
    [| injection Hrun as <- <-; auto | injection Hrun as <- <-; auto].
  pose proof (create_keeps_store tryParse this ancestors (value (def o)) st Hpure)
    as Hsame.
  destruct (create tryParse this ancestors (value (def o)) st) as [[v|e] st1];
    simpl in Hsame; subst st1; injection Hrun as <- <-; [|auto].
  simpl. split; [done|]. split; [|auto].
  intros other Hother. apply registryGet_insert_ne. simpl.
  by rewrite (firstHit_name _ _ _ _ _ Hhit).
Qed.

(** X9.  [get] answers not-found exactly for the names [forEach] does not
    visit, that is the names no registry of the chain holds, and then leaves
    the store as it was. *)
Theorem get_not_found_iff_not_visited
  (this : ScopedObjectContext) (ancestors : list ScopedObjectContext)
  (objectName : string) (st : Store) :
  (get tryParse this ancestors objectName st = (Ok None, st)
   <-> objectName ∉ namesOf (forEach this ancestors st)) /\
  (forall st', get tryParse this ancestors objectName st = (Ok None, st') -> st' = st).
Proof.
  assert (forall st', get tryParse this ancestors objectName st = (Ok None, st') ->
            st' = st /\
            nearestObject (chainRegistries (this :: ancestors) (registries st)) objectName
              = None) as Hinv.
  { intros st' Hrun. rewrite get_cases in Hrun. rewrite nearestObject_chain.
    destruct (registryGet (hd [] (registries st)) objectName); [done|].
    destruct (firstHit (chainRegistries ancestors (tl (registries st))) objectName 1)
      as [[k o]|]; [|by injection Hrun as <-].
    unfold inherit in Hrun.
    destruct (needsUpdate this ancestors o (Z.of_nat k)) as [[|]|]; try done.
    by destruct (create tryParse this ancestors (value (def o)) st) as [[v|e] st1]. }
  split; [|intros st' Hrun; by destruct (Hinv st' Hrun)].
  rewrite forEach_names, <- nearestObject_None. split.
  - intros Hrun. by destruct (Hinv st Hrun).
  - rewrite nearestObject_chain, get_cases.
    destruct (registryGet (hd [] (registries st)) objectName); [done|].
    by destruct (firstHit (chainRegistries ancestors (tl (registries st))) objectName 1)
      as [[k o]|].
Qed.

(** X10.  The object [get] returns carries the declaration of the nearest
    object the chain holds for the name: it is that very object, the store
    being unchanged, or an object labelled with the requesting scope that now
    sits in the registry of the requesting scope. *)
Theorem get_returns_nearest_declaration
  (this : ScopedObjectContext) (ancestors : list ScopedObjectContext)
  (objectName : string) (st st' : Store) (object : NamedObject) :
  get tryParse this ancestors objectName st = (Ok (Some object), st') ->
  exists held,
    nearestObject (chainRegistries (this :: ancestors) (registries st)) objectName
      = Some held /\
    def object = def held /\
    name (def object) = objectName /\
    ((object = held /\ st' = st) \/
     (scope object = _scope this /\
      registryGet (hd [] (registries st')) objectName = Some object)).
Proof.
  intros Hrun. rewrite get_cases in Hrun. rewrite nearestObject_chain.
  destruct (registryGet (hd [] (registries st)) objectName) as [o|] eqn:Hlocal.
  { injection Hrun as <- <-. exists o. repeat split; auto.
    by apply registryGet_Some in Hlocal as [_ ?]. }
  destruct (firstHit (chainRegistries ancestors (tl (registries st))) objectName 1)
    as [[k o]|] eqn:Hhit; [|done].
  pose proof (firstHit_name _ _ _ _ _ Hhit) as Hname.
  unfold inherit in Hrun.
  destruct (needsUpdate this ancestors o (Z.of_nat k)) as [[|]|]; [| |done].
  - destruct (create tryParse this ancestors (value (def o)) st) as [[v|e] st1]; [|done].
    injection Hrun as <- <-. exists o. repeat split; auto. right. split; [done|].
    simpl. rewrite <- Hname. apply (registryGet_insert _ (rebuilt this o v st1)).
  - injection Hrun as <- <-. exists o. repeat split; auto.
Qed.

(** X12.  What [get] returns is what [forEach] visits for that name from
    then on: the object returned for a name is among the objects [forEach]
    hands to its callback on the store the call leaves. *)
Theorem get_result_is_visited
  (this : ScopedObjectContext) (ancestors : list ScopedObjectContext)
  (objectName : string) (st st' : Store) (object : NamedObject) :
  get tryParse this ancestors objectName st = (Ok (Some object), st') ->
  object ∈ forEach this ancestors st'.
Proof.
  intros Hrun.
  assert (nearestObject (chainRegistries (this :: ancestors) (registries st')) objectName
          = Some object) as Hnear.
  { rewrite get_cases in Hrun. rewrite nearestObject_chain.
    destruct (registryGet (hd [] (registries st)) objectName) as [o|] eqn:Hlocal.
    { injection Hrun as <- <-. by rewrite Hlocal. }
    destruct (firstHit (chainRegistries ancestors (tl (registries st))) objectName 1)
      as [[k o]|] eqn:Hhit; [|done].
    pose proof (firstHit_name _ _ _ _ _ Hhit) as Hname.
    unfold inherit in Hrun.
    destruct (needsUpdate this ancestors o (Z.of_nat k)) as [[|]|]; [| |done].
    - destruct (create tryParse this ancestors (value (def o)) st) as [[v|e] st1]; [|done].
      injection Hrun as <- <-. simpl. rewrite <- Hname.
      by rewrite (registryGet_insert _ (rebuilt this o v st1)).
    - injection Hrun as <- <-. by rewrite Hlocal, Hhit. }
  pose proof (nearestObject_Some _ _ _ Hnear) as Hname.
  destruct (decide (objectName ∈ namesOf (forEach this ancestors st'))) as [Hin|Hout].
  - apply elem_of_namesOf in Hin as (o' & Ho' & Hname').
    pose proof (forEach_object _ _ _ _ Ho') as Hnear'. rewrite Hname' in Hnear'.
    congruence.
  - rewrite forEach_names, <- nearestObject_None in Hout. congruence.
Qed.

(** X13.  An inherited object whose declaration was never analysed has no
    dependency set to look at: when the definition of the requesting scope
    declares anything, a type, a resolver or a named object, [get] on a miss
    in its own registry followed by a hit on such an object throws a
    TypeError and leaves the store as it was. *)
Theorem get_throws_on_unanalysed_declaration
  (this : ScopedObjectContext) (ancestors : list ScopedObjectContext)
  (objectName : string) (st : Store) (depth : nat) (found : NamedObject) :
  registryGet (hd [] (registries st)) objectName = None ->
  firstHit (chainRegistries ancestors (tl (registries st))) objectName 1
    = Some (depth, found) ->
  dependencies (def found) = None ->
  typeDefs (_def this) <> [] \/ providerDefs (_def this) <> [] \/
    namedObjectDefs (_def this) <> [] ->
  get tryParse this ancestors objectName st
    = (Err (TypeError "Cannot read property of undefined"), st).
Proof.
  intros Hmiss Hhit Hnone Hdecl.
  rewrite get_cases, Hmiss, Hhit. unfold inherit, needsUpdate.
  destruct ancestors as [|a ancestors]; [done|].
  unfold dependenciesOf. rewrite Hnone.
  destruct (typeDefs (_def this)) as [|td tds] eqn:Ht; [|done].
  destruct (providerDefs (_def this)) as [|pd pds] eqn:Hp; [|done].
  destruct (namedObjectDefs (_def this)) as [|od ods] eqn:Ho; [|done].
  by destruct Hdecl as [?|[?|?]].
Qed.

(** X25.  When [get] misses in the registry of the requesting scope and
    first hits an ancestor's object [depth] hops up, a dependency recorded
    for that object is overridden as seen from the requesting scope (its own
    definition declares entries of the kind of the dependency and the
    dependency is declared within [depth - 1] hops of that definition), the
    builders and resolvers of the chain leave the store as they find it, and
    [create] succeeds on the raw value of the declaration, then [get]
    returns a new object (next identity of the store) made of the
    declaration found, the value just created and the label of the
    requesting scope, and leaves it in the registry of the requesting scope,
    where the next [get] finds it; in the store after the rebuild, the owner
    of the object found, and every scope between the two that finds nothing
    to update, still get the object of the owner. *)
Theorem get_rebuilds_when_override_is_seen
  (this : ScopedObjectContext) (ancestors : list ScopedObjectContext)
  (objectName : string) (st : Store) (depth : nat) (found : NamedObject)
  (deps : ObjectContextDependency) (v : JsValue) :
  storePreserving (this :: ancestors) ->
  registryGet (hd [] (registries st)) objectName = None ->
  firstHit (chainRegistries ancestors (tl (registries st))) objectName 1
    = Some (depth, found) ->
  dependencies (def found) = Some deps ->
  Overridden this deps depth ->
  (create tryParse this ancestors (value (def found)) st).1 = Ok v ->
  let fresh := {| identity := nextIdentity st; def := def found; built := v;
                  scope := _scope this |} in
  let after := insertLocal fresh st in
  get tryParse this ancestors objectName st = (Ok (Some fresh), after) /\
  registryGet (hd [] (registries after)) objectName = Some fresh /\
  get tryParse this ancestors objectName after = (Ok (Some fresh), after) /\
  (forall hops above,
     (1 <= hops <= depth)%nat ->
     ancestors !! (hops - 1)%nat = Some above ->
     ((hops < depth)%nat ->
      needsUpdate above (drop hops ancestors) found (Z.of_nat (depth - hops)) = Ok false) ->
     get tryParse above (drop hops ancestors) objectName (storeView hops after)
       = (Ok (Some found), storeView hops after)).
Proof.
  intros Hpure Hmiss Hhit Hdeps Hover Hvalue fresh after.
  assert (create tryParse this ancestors (value (def found)) st = (Ok v, st)) as Hcreate.
  { pose proof (create_keeps_store tryParse this ancestors (value (def found)) st Hpure)
      as Hstore.
    destruct (create tryParse this ancestors (value (def found)) st) as [r st'].
    simpl in *. by subst. }
  assert (ancestors <> []) as Hanc.
  { intros ->. simpl in Hhit. done. }
  assert (name (def found) = objectName) as Hname by (by eapply firstHit_name).
  assert (registryGet (hd [] (registries after)) objectName = Some fresh) as Hcached.
  { simpl. rewrite <- Hname. apply (registryGet_insert _ fresh). }
  split; [|split; [exact Hcached|split]].
  - rewrite get_cases, Hmiss, Hhit. unfold inherit.
    rewrite (needsUpdate_overridden _ _ _ deps) by done.
    by rewrite Hcreate.
  - by rewrite get_cases, Hcached.
  - intros hops above Hhops Habove Hno.
    by apply (get_above_returns_original tryParse ancestors objectName after depth).
Qed.

End GetProperties.

Ltac preserves_store :=
  let scope := fresh "scope" in
  let Hin := fresh "Hin" in
  intros scope Hin;
  repeat (apply elem_of_cons in Hin as [->|Hin]);
  try (by apply elem_of_nil in Hin);
  split; let c := fresh "c" in let Hc := fresh "Hc" in
         intros c Hc; injection Hc as <-; reflexivity.

Lemma get_settles_witness :
  get referenceParse applicationScope [globalScope] "base" storeRebuilt
    = (Ok (Some applicationBase), storeRebuilt).
Proof.
  apply (get_settles referenceParse applicationScope [globalScope] "base"
           (storeView 1 store0) storeRebuilt (Some applicationBase)).
  reflexivity.
Defined.

Lemma application_chain_preserves_store : storePreserving [applicationScope; globalScope].
Proof. preserves_store. Defined.

Lemma get_touches_own_entry_only_witness :
  tl (registries storeRebuilt) = tl (registries (storeView 1 store0)) /\
  (forall other, other <> "base" ->
     registryGet (hd [] (registries storeRebuilt)) other
       = registryGet (hd [] (registries (storeView 1 store0))) other) /\
  (nextIdentity storeRebuilt = nextIdentity (storeView 1 store0) \/
   nextIdentity storeRebuilt = S (nextIdentity (storeView 1 store0))).
Proof.
  apply (get_touches_own_entry_only referenceParse applicationScope [globalScope] "base"
           (storeView 1 store0) storeRebuilt (Ok (Some applicationBase))
           application_chain_preserves_store).
  reflexivity.
Defined.

Lemma get_returns_nearest_declaration_witness :
  exists held,
    nearestObject (chainRegistries [applicationScope; globalScope]
                     (registries (storeView 1 store0))) "base" = Some held /\
    def applicationBase = def held /\
    name (def applicationBase) = "base" /\
    ((applicationBase = held /\ storeRebuilt = storeView 1 store0) \/
     (scope applicationBase = _scope applicationScope /\
      registryGet (hd [] (registries storeRebuilt)) "base" = Some applicationBase)).
Proof.
  apply (get_returns_nearest_declaration referenceParse applicationScope [globalScope]
           "base" (storeView 1 store0) storeRebuilt applicationBase).
  reflexivity.
Defined.

Lemma get_result_is_visited_witness :
  applicationBase ∈ forEach applicationScope [globalScope] storeRebuilt.
Proof.
  apply (get_result_is_visited referenceParse applicationScope [globalScope] "base"
           (storeView 1 store0) storeRebuilt applicationBase).
  reflexivity.
Defined.

(** The application scope declares [Number] again: [get] rebuilds [base]
    there, and the global scope, in the store after the rebuild, keeps its
    own. *)
Lemma get_rebuilds_witness :
  get referenceParse applicationScope [globalScope] "base" (storeView 1 store0)
    = (Ok (Some applicationBase), storeRebuilt) /\
  get referenceParse applicationScope [globalScope] "base" storeRebuilt
    = (Ok (Some applicationBase), storeRebuilt) /\
  get referenceParse globalScope [] "base" (storeView 1 storeRebuilt)
    = (Ok (Some globalBase), storeView 1 storeRebuilt).
Proof.
  destruct (get_rebuilds_when_override_is_seen referenceParse applicationScope [globalScope]
              "base" (storeView 1 store0) 1 globalBase baseDependencies
              (built applicationBase)) as (Hget & _ & Hagain & Habove).
  - exact application_chain_preserves_store.
  - reflexivity.
  - reflexivity.
  - reflexivity.
  - apply (overridden_type _ _ _ (JsString "Number")).
    + discriminate.
    + apply list_elem_of_here.
    + exists (numberType "application"). reflexivity.
  - reflexivity.
  - split; [exact Hget|]. split; [exact Hagain|].
    apply (Habove 1%nat globalScope); [lia|reflexivity|lia].
Defined.

(** The tenant scope declares a type; the root holds [base] with a
    declaration that was never analysed. *)
Lemma get_throws_on_unanalysed_declaration_witness :
  get referenceParse tenantScope [globalScope] "base"
    {| nextIdentity := 1; registries := [[]; [unanalysedBase]] |}
  = (Err (TypeError "Cannot read property of undefined"),
     {| nextIdentity := 1; registries := [[]; [unanalysedBase]] |}).
Proof.
  apply (get_throws_on_unanalysed_declaration referenceParse tenantScope [globalScope]
           "base" _ 1 unanalysedBase); [reflexivity|reflexivity|reflexivity|].
  left. discriminate.
Defined.

(** ** Lookups along the definitions *)

Lemma lookupChain_mono {A} (localGet : ScopedObjectContextDef -> option A) d :
  forall n m decl,
    (n <= m)%Z ->
    lookupChain localGet d n = Some decl -> lookupChain localGet d m = Some decl.
Proof.
  induction d as [d IH] using ScopedObjectContextDef_parent_ind. intros n m decl Hle.
  destruct d as [parent tds pds ods]; simpl in *.
  destruct (localGet _); [done|].
  destruct (0 <? n)%Z eqn:Hn; [|done]. apply Z.ltb_lt in Hn.
  assert ((0 <? m)%Z = true) as -> by (apply Z.ltb_lt; lia).
  destruct parent as [p|]; [|done]. apply (IH p eq_refl); lia.
Qed.

(** X14.  A larger budget never loses a declaration: what [getTypeDef],
    [getProviderDef] or [getNamedObjectDef] finds with a budget it finds,
    the same declaration, with every larger budget. *)
Theorem lookup_budget_monotone (d : ScopedObjectContextDef) (n m : Z) :
  (n <= m)%Z ->
  (forall typeName decl,
     getTypeDef d typeName n = Some decl -> getTypeDef d typeName m = Some decl) /\
  (forall protocolName decl,
     getProviderDef d protocolName n = Some decl ->
     getProviderDef d protocolName m = Some decl) /\
  (forall objectName decl,
     getNamedObjectDef d objectName n = Some decl ->
     getNamedObjectDef d objectName m = Some decl).
Proof.
  intros Hle. split; [|split].
  - intros t decl. rewrite !getTypeDef_lookupChain. by apply lookupChain_mono.
  - intros p decl. rewrite !getProviderDef_lookupChain. by apply lookupChain_mono.
  - intros o decl. rewrite !getNamedObjectDef_lookupChain. by apply lookupChain_mono.
Qed.

Lemma withinBudget_all d n :
  (Z.of_nat (length (defChain d)) - 1 <= n)%Z -> withinBudget d n = defChain d.
Proof. intros Hn. unfold withinBudget. apply take_ge. lia. Qed.

(** X15.  A budget of at least the number of ancestors is no bound at all:
    the lookup then returns the declaration of the nearest definition of the
    whole chain that maps the name, and not-found only when no definition up
    to the root maps it; so the default budget covers every chain of at most
    33 definitions. *)
Theorem lookup_budget_saturates (d : ScopedObjectContextDef) (n : Z) :
  (Z.of_nat (length (defChain d)) - 1 <= n)%Z ->
  (forall typeName : JsValue,
      nearestOf (fun d' => mapGet (_typeNameToDef d') typeName)
                (defChain d) (getTypeDef d typeName n)) /\
  (forall protocolName : string,
      nearestOf (fun d' => _protocolNameToDef d' !! protocolName)
                (defChain d) (getProviderDef d protocolName n)) /\
  (forall objectName : string,
      nearestOf (fun d' => _objectNameToDef d' !! objectName)
                (defChain d) (getNamedObjectDef d objectName n)).
Proof.
  intros Hn. rewrite <- (withinBudget_all d n Hn). split; [|split].
  - intros t. rewrite getTypeDef_lookupChain. apply lookupChain_nearest.
  - intros p. rewrite getProviderDef_lookupChain. apply lookupChain_nearest.
  - intros o. rewrite getNamedObjectDef_lookupChain. apply lookupChain_nearest.
Qed.

Lemma foldl_insert_other {A} (key : A -> string) (k : string) (l : list A) :
  forall m : gmap string A,
    Forall (fun x => key x <> k) l ->
    foldl (fun m d => <[key d := d]> m) m l !! k = m !! k.
Proof.
  induction l as [|x l IH]; intros m Hall; simpl; [done|].
  apply Forall_cons in Hall as [Hx Hl]. rewrite IH by done.
  by rewrite lookup_insert_ne.
Qed.

Lemma buildMap_last_wins {A} (key : A -> string) (before after : list A) (decl : A) :
  Forall (fun x => key x <> key decl) after ->
  buildMap key (before ++ decl :: after) !! key decl = Some decl.
Proof.
  intros Hall. unfold buildMap. rewrite foldl_app. simpl.
  rewrite foldl_insert_other by done. by rewrite lookup_insert_eq.
Qed.

(** X16.  Of several declarations of one name in the array a definition is
    built from, the last one is the declaration of the definition: the
    lookup of the name returns it, with any budget. *)
Theorem later_declaration_wins (d : ScopedObjectContextDef) (n : Z) :
  (forall before decl after,
     typeDefs d = before ++ decl :: after ->
     Forall (fun x => typeName x <> typeName decl) after ->
     getTypeDef d (JsString (typeName decl)) n = Some decl) /\
  (forall before decl after,
     providerDefs d = before ++ decl :: after ->
     Forall (fun x => protocol x <> protocol decl) after ->
     getProviderDef d (protocol decl) n = Some decl) /\
  (forall before decl after,
     namedObjectDefs d = before ++ decl :: after ->
     Forall (fun x => name x <> name decl) after ->
     getNamedObjectDef d (name decl) n = Some decl).
Proof.
  split; [|split]; intros before decl after Hdefs Hall;
    destruct d as [parent tds pds ods]; simpl in *.
  - unfold _typeNameToDef; simpl. rewrite Hdefs.
    by rewrite buildMap_last_wins.
  - unfold _protocolNameToDef; simpl. rewrite Hdefs.
    by rewrite buildMap_last_wins.
  - unfold _objectNameToDef; simpl. rewrite Hdefs.
    by rewrite buildMap_last_wins.
Qed.

Lemma lookup_budget_monotone_witness :
  getTypeDef requestDef (JsString "Number") defaultMaxDepth
    = Some (numberType "application").
Proof.
  apply (proj1 (lookup_budget_monotone requestDef 1 defaultMaxDepth ltac:(done))).
  reflexivity.
Defined.

Lemma lookup_budget_saturates_witness :
  nearestOf (fun d' => mapGet (_typeNameToDef d') (JsString "Number"))
            (defChain requestDef) (getTypeDef requestDef (JsString "Number") 2).
Proof.
  apply (proj1 (lookup_budget_saturates requestDef 2 ltac:(done))).
Defined.

Lemma later_declaration_wins_witness :
  getTypeDef twiceDef (JsString "Number") 0 = Some (numberType "second").
Proof.
  apply (proj1 (later_declaration_wins twiceDef 0) [numberType "first"]
           (numberType "second") []); [reflexivity|constructor].
Defined.

(** ** The constructor of a definition *)

Section Construction.

Variable tryParse : JsValue -> option Uri.

Lemma analyzeDirectDependencies_null v :
  nullFree v = false ->
  forall dep,
    analyzeDirectDependencies tryParse dep v
      = Err (TypeError "Cannot read property '_type' of null").
Proof.
  induction v as [ | |b|n|s|elems IH|props IH] using JsValue_tree_ind;
    intros Hnull dep; simpl in *; try done.
  - revert dep. induction IH as [|v elems Hv _ IHl]; intros dep; simpl in *; [done|].
    destruct (nullFree v) eqn:Hfree.
    + destruct (analyzeDirectDependencies_records tryParse v Hfree dep) as (dep1 & -> & _).
      by apply IHl.
    + by rewrite Hv.
  - generalize (match getProp "_type" props with
                | Some typeName =>
                    if notNull typeName then setTypeDependency dep typeName else dep
                | None => dep
                end).
    induction IH as [|[k v] props Hv _ IHl]; intros dep1; simpl in *; [done|].
    destruct (nullFree v) eqn:Hfree.
    + destruct (analyzeDirectDependencies_records tryParse v Hfree dep1) as (dep2 & -> & _).
      by apply IHl.
    + by rewrite Hv.
Qed.

Lemma analyzeOne_null this def :
  nullFree (value def) = false ->
  analyzeOne tryParse this def = Err (TypeError "Cannot read property '_type' of null").
Proof.
  intros Hnull. unfold analyzeOne. by rewrite analyzeDirectDependencies_null.
Qed.

Lemma analyzeOne_acceptable this def :
  (exists def', analyzeOne tryParse this def = Ok def') <-> acceptable tryParse this def.
Proof.
  unfold acceptable. destruct (nullFree (value def)) eqn:Hfree.
  - destruct (analyzeOne_cases tryParse this def Hfree)
      as [(def' & Hok & Hnone)|(e & Herr & Hbad)].
    + split; [done|]. intros _. by exists def'.
    + split.
      * intros [def' Hok]. congruence.
      * intros [_ Hnone]. by destruct (Hnone e).
  - rewrite analyzeOne_null by done. split; [by intros [? ?]|by intros [? _]].
Qed.

Lemma firstPass_acceptable this defs :
  (exists defs', firstPass tryParse this defs = Ok defs')
  <-> Forall (acceptable tryParse this) defs.
Proof.
  induction defs as [|def rest IH]; simpl.
  - split; [constructor|by exists []].
  - rewrite Forall_cons, <- IH, <- analyzeOne_acceptable. split.
    + intros [defs' Hrun].
      destruct (analyzeOne tryParse this def) as [def'|]; [|done].
      destruct (firstPass tryParse this rest) as [rest'|]; [|done].
      split; by eexists.
    + intros [[def' ->] [rest' ->]]. by eexists.
Qed.

(** X17.  The construction of a definition with dependency analysis
    succeeds exactly when no raw value of its named objects holds a [null]
    and every type tag and every reference protocol in those raw values is
    declared by the definition or by an ancestor within the default budget;
    named-object dependencies play no part. *)
Theorem construction_succeeds_iff_acceptable
  (parentDefinition : option ScopedObjectContextDef) (typeDefs : list TypeDef)
  (providerDefs : list ProviderDef) (objectDefs : list NamedObjectDef) :
  let this := MkScopedObjectContextDef parentDefinition typeDefs providerDefs objectDefs in
  (exists d,
     newScopedObjectContextDef tryParse parentDefinition typeDefs providerDefs objectDefs
       true = Some (Ok d))
  <-> Forall (acceptable tryParse this) objectDefs.
Proof.
  intros this. rewrite <- firstPass_acceptable.
  unfold newScopedObjectContextDef. fold this.
  rewrite analyzeNamedObjectDependencies_firstPass. simpl.
  destruct (firstPass tryParse this objectDefs) as [defs'|e].
  - split; intros _; by eexists.
  - split; by intros [? ?].
Qed.

Lemma analyzeOne_Ok this def def' :
  analyzeOne tryParse this def = Ok def' ->
  exists dep,
    def' = withDependencies def dep /\
    analyzeDirectDependencies tryParse newDependency (value def) = Ok dep /\
    checkTypes this (name def) (typeDependencies dep) = Ok tt /\
    checkProtocols this (name def) (protocolDependencies dep) = Ok tt.
Proof.
  unfold analyzeOne. intros Hrun.
  destruct (analyzeDirectDependencies tryParse newDependency (value def)) as [dep|] eqn:E;
    simpl in Hrun; [|done].
  destruct (checkTypes this (name def) (typeDependencies dep)) as [[]|] eqn:Et;
    simpl in Hrun; [|done].
  destruct (checkProtocols this (name def) (protocolDependencies dep)) as [[]|] eqn:Ep;
    simpl in Hrun; [|done].
  injection Hrun as <-. by exists dep.
Qed.

Lemma firstPass_Forall2 this defs : forall defs',
  firstPass tryParse this defs = Ok defs' ->
  Forall2 (fun def def' => analyzeOne tryParse this def = Ok def') defs defs'.
Proof.
  induction defs as [|def rest IH]; intros defs' Hrun; simpl in Hrun.
  - injection Hrun as <-. constructor.
  - destruct (analyzeOne tryParse this def) as [def1|] eqn:E; simpl in Hrun; [|done].
    destruct (firstPass tryParse this rest) as [rest1|]; simpl in Hrun; [|done].
    injection Hrun as <-. constructor; [done|by apply IH].
Qed.

(** X18.  The constructor changes nothing of what it is given but the
    dependency sets: the definition returned has the parent, the type and
    resolver declarations it was given, and its named-object declarations
    are the ones given, in the same order, with the same names and raw
    values; without dependency analysis they are the very declarations
    given. *)
Theorem construction_keeps_declarations
  (parentDefinition : option ScopedObjectContextDef) (typeDefs0 : list TypeDef)
  (providerDefs0 : list ProviderDef) (objectDefs : list NamedObjectDef)
  (enableDependencyAnalysis : bool) (d : ScopedObjectContextDef) :
  newScopedObjectContextDef tryParse parentDefinition typeDefs0 providerDefs0 objectDefs
    enableDependencyAnalysis = Some (Ok d) ->
  _parent d = parentDefinition /\
  typeDefs d = typeDefs0 /\
  providerDefs d = providerDefs0 /\
  Forall2 (fun def def' => name def' = name def /\ value def' = value def)
          objectDefs (namedObjectDefs d) /\
  (enableDependencyAnalysis = false -> namedObjectDefs d = objectDefs).
Proof.
  unfold newScopedObjectContextDef. destruct enableDependencyAnalysis.
  - rewrite analyzeNamedObjectDependencies_firstPass. simpl.
    set (this := MkScopedObjectContextDef parentDefinition typeDefs0 providerDefs0
                   objectDefs).
    destruct (firstPass tryParse this objectDefs) as [defs'|] eqn:E; [|done].
    intros [= <-]. simpl. repeat split; try done.
    apply firstPass_Forall2 in E.
    eapply Forall2_impl; [exact E|]. intros def def' Hone.
    apply analyzeOne_Ok in Hone as (dep & -> & _). done.
  - intros [= <-]. simpl. repeat split; try done.
    apply Forall2_same_length_lookup. split; [done|].
    intros i x y Hx Hy. rewrite Hx in Hy. by injection Hy as <-.
Qed.

Lemma checkTypes_Ok this objectName typeDeps :
  checkTypes this objectName typeDeps = Ok tt ->
  forall t, t ∈ typeDeps -> is_Some (getTypeDef this t defaultMaxDepth).
Proof.
  intros Hok t Hin.
  destruct (checkTypes_cases this objectName typeDeps) as [[_ Hall]|(t' & _ & _ & Herr)].
  - specialize (Hall t Hin). by destruct (getTypeDef this t defaultMaxDepth).
  - congruence.
Qed.

Lemma checkProtocols_Ok this objectName protocolDeps :
  checkProtocols this objectName protocolDeps = Ok tt ->
  forall p, p ∈ protocolDeps -> is_Some (getProviderDef this p defaultMaxDepth).
Proof.
  intros Hok p Hin.
  destruct (checkProtocols_cases this objectName protocolDeps)
    as [[_ Hall]|(p' & _ & _ & Herr)].
  - specialize (Hall p Hin). by destruct (getProviderDef this p defaultMaxDepth).
  - congruence.
Qed.

(** X19.  After a construction with dependency analysis, every named-object
    declaration of the definition carries a dependency set that holds
    exactly the type tags of its raw value and the protocols of the
    references in it, each of which the definition resolves with the default
    budget, and no named-object name. *)
Theorem construction_records_references
  (parentDefinition : option ScopedObjectContextDef) (typeDefs0 : list TypeDef)
  (providerDefs0 : list ProviderDef) (objectDefs : list NamedObjectDef)
  (d : ScopedObjectContextDef) :
  newScopedObjectContextDef tryParse parentDefinition typeDefs0 providerDefs0 objectDefs
    true = Some (Ok d) ->
  Forall (faithfullyRecorded tryParse d) (namedObjectDefs d).
Proof.
  unfold newScopedObjectContextDef.
  rewrite analyzeNamedObjectDependencies_firstPass. simpl.
  set (this := MkScopedObjectContextDef parentDefinition typeDefs0 providerDefs0 objectDefs).
  destruct (firstPass tryParse this objectDefs) as [defs'|] eqn:E; [|done].
  intros [= <-]. simpl. apply firstPass_Forall2 in E.
  apply Forall_forall. intros def' Hin.
  apply list_elem_of_lookup in Hin as [i Hi].
  destruct (Forall2_lookup_r _ _ _ _ _ E Hi) as (def & _ & Hone).
  pose proof (proj1 (analyzeOne_acceptable this def) (ex_intro _ _ Hone)) as [Hfree _].
  apply analyzeOne_Ok in Hone as (dep & -> & Hrun & Htypes & Hprotocols).
  destruct (analyzeDirectDependencies_records tryParse (value def) Hfree newDependency)
    as (dep' & Hrun' & Ht & Hp).
  rewrite Hrun in Hrun'. injection Hrun' as <-.
  exists dep. simpl. split; [done|]. split; [|split; [|split; [|split]]].
  - intros t. rewrite Ht. simpl. split; [|by right].
    intros [H|?]; [by apply elem_of_nil in H|done].
  - intros p. rewrite Hp. simpl. split; [|by right].
    intros [H|?]; [by apply elem_of_nil in H|done].
  - by apply analyzeDirectDependencies_objects in Hrun.
  - intros t Hin. by apply (checkTypes_Ok this (name def) _ Htypes).
  - intros p Hin. by apply (checkProtocols_Ok this (name def) _ Hprotocols).
Qed.

Lemma firstPass_prefix this before : forall rest,
  Forall (acceptable tryParse this) before ->
  forall e, firstPass tryParse this rest = Err e ->
            firstPass tryParse this (before ++ rest) = Err e.
Proof.
  induction before as [|def before IH]; intros rest Hall e Hrest; simpl; [done|].
  apply Forall_cons in Hall as [Hdef Hbefore].
  apply analyzeOne_acceptable in Hdef as [def' ->]. simpl.
  by rewrite (IH rest Hbefore e Hrest).
Qed.

(** X20.  The construction reports the first declaration, in the order of
    the array, that it cannot accept, and types before protocols: when the
    declarations before it are acceptable, a raw value with a [null] fails
    with the TypeError of the walk, and a raw value without [null] that
    refers to an undeclared type fails for such a type of that declaration,
    whatever its references and whatever comes after it: with the
    unrecognized-type error naming the type and the name of the declaration
    when the type converts to a string, with the [TypeError] of the
    conversion when it does not. *)
Theorem construction_reports_first_offender
  (parentDefinition : option ScopedObjectContextDef) (typeDefs0 : list TypeDef)
  (providerDefs0 : list ProviderDef) (before after : list NamedObjectDef)
  (def : NamedObjectDef) :
  let objectDefs := before ++ def :: after in
  let this := MkScopedObjectContextDef parentDefinition typeDefs0 providerDefs0 objectDefs in
  let outcome :=
    newScopedObjectContextDef tryParse parentDefinition typeDefs0 providerDefs0 objectDefs
      true in
  Forall (acceptable tryParse this) before ->
  (nullFree (value def) = false ->
   outcome = Some (Err (TypeError "Cannot read property '_type' of null"))) /\
  (nullFree (value def) = true ->
   (exists t, t ∈ typeTagsIn (value def) /\ getTypeDef this t defaultMaxDepth = None) ->
   exists t,
     t ∈ typeTagsIn (value def) /\ getTypeDef this t defaultMaxDepth = None /\
     outcome = Some (Err (if printable t then UnrecognizedType t (name def)
                          else TypeError "Cannot convert object to primitive value"))).
Proof.
  intros objectDefs this outcome Hbefore. unfold outcome, newScopedObjectContextDef.
  fold this. rewrite analyzeNamedObjectDependencies_firstPass. simpl. fold objectDefs.
  split.
  - intros Hnull. unfold objectDefs.
    rewrite (firstPass_prefix this before (def :: after) Hbefore
               (TypeError "Cannot read property '_type' of null")); [done|].
    simpl. by rewrite analyzeOne_null.
  - intros Hfree (t0 & Hin0 & Hnone0).
    destruct (analyzeDirectDependencies_records tryParse (value def) Hfree newDependency)
      as (dep & Hrun & Ht & _).
    destruct (checkTypes_cases this (name def) (typeDependencies dep))
      as [[_ Hall]|(t & Hin & Hnone & Herr)].
    { exfalso. apply (Hall t0); [|done]. apply Ht. by right. }
    exists t. split; [|split; [done|]].
    { apply Ht in Hin as [Hin|Hin]; [by apply elem_of_nil in Hin|done]. }
    unfold objectDefs.
    rewrite (firstPass_prefix this before (def :: after) Hbefore
               (unrecognizedType t (name def))); [done|].
    simpl. unfold analyzeOne. rewrite Hrun. simpl. by rewrite Herr.
Qed.

End Construction.

Lemma construction_keeps_declarations_witness :
  _parent globalDef = None /\
  typeDefs globalDef = [numberType "global"] /\
  providerDefs globalDef = [] /\
  Forall2 (fun def def' => name def' = name def /\ value def' = value def)
          [baseDecl] (namedObjectDefs globalDef) /\
  (true = false -> namedObjectDefs globalDef = [baseDecl]).
Proof.
  apply (construction_keeps_declarations referenceParse None [numberType "global"] []
           [baseDecl] true globalDef).
  reflexivity.
Defined.

Lemma construction_records_references_witness :
  Forall (faithfullyRecorded referenceParse globalDef) (namedObjectDefs globalDef).
Proof.
  apply (construction_records_references referenceParse None [numberType "global"] []
           [baseDecl] globalDef).
  reflexivity.
Defined.

Lemma baseDecl_acceptable :
  Forall (acceptable referenceParse
            (MkScopedObjectContextDef None [numberType "global"] []
               ([baseDecl] ++ strayDecl :: [fileDecl])))
         [baseDecl].
Proof.
  constructor; [|constructor]. split; [reflexivity|].
  intros e [t Hin Hnone|p Hin Hnone]; simpl in Hin.
  - apply list_elem_of_singleton in Hin. subst t. discriminate Hnone.
  - by apply elem_of_nil in Hin.
Defined.

(** The second declaration refers to the undeclared type [Text]; the third,
    with its reference to an undeclared protocol, is not reached. *)
Lemma construction_reports_first_offender_witness :
  exists t,
    t ∈ typeTagsIn (value strayDecl) /\
    getTypeDef (MkScopedObjectContextDef None [numberType "global"] []
                  ([baseDecl] ++ strayDecl :: [fileDecl])) t defaultMaxDepth = None /\
    newScopedObjectContextDef referenceParse None [numberType "global"] []
      ([baseDecl] ++ strayDecl :: [fileDecl]) true
    = Some (Err (if printable t then UnrecognizedType t (name strayDecl)
                 else TypeError "Cannot convert object to primitive value")).
Proof.
  apply (proj2 (construction_reports_first_offender referenceParse None
                  [numberType "global"] [] [baseDecl] [fileDecl] strayDecl
                  baseDecl_acceptable)); [reflexivity|].
  exists (JsString "Text"). split; [apply list_elem_of_here|reflexivity].
Defined.

(** ** When [needsUpdate] asks for a rebuild *)

Lemma overridden_true_inv {A B} (lookup : A -> Z -> option B) deps depth :
  overridden lookup deps depth = true ->
  exists dep, dep ∈ deps /\ is_Some (lookup dep (depth - 1)%Z).
Proof.
  unfold overridden. intros Hex. apply existsb_exists in Hex as (dep & Hin & Hdep).
  exists dep. split; [by apply list_elem_of_In|by apply bool_decide_eq_true in Hdep].
Qed.

Lemma needsUpdate_true_inv this ancestors o depth :
  needsUpdate this ancestors o (Z.of_nat depth) = Ok true ->
  exists deps, dependencies (def o) = Some deps /\ Overridden this deps depth.
Proof.
  unfold needsUpdate. destruct ancestors as [|a ancestors]; [done|].
  unfold dependenciesOf.
  destruct (dependencies (def o)) as [deps|] eqn:Hdeps.
  - intros Hrun. exists deps. split; [done|]. simpl in Hrun.
    destruct (typeDefs (_def this)) as [|td tds] eqn:Ht; simpl in Hrun.
    + destruct (providerDefs (_def this)) as [|pd pds] eqn:Hp; simpl in Hrun.
      * destruct (namedObjectDefs (_def this)) as [|od ods] eqn:Ho; simpl in Hrun; [done|].
        injection Hrun as Hrun. apply overridden_true_inv in Hrun as (x & Hin & Hsome).
        apply (overridden_object _ _ _ x); [by rewrite Ho|done|done].
      * destruct (overridden (getProviderDef _) _ _) eqn:Eo.
        { apply overridden_true_inv in Eo as (x & Hin & Hsome).
          apply (overridden_protocol _ _ _ x); [by rewrite Hp|done|done]. }
        destruct (namedObjectDefs (_def this)) as [|od ods] eqn:Ho; simpl in Hrun; [done|].
        injection Hrun as Hrun. apply overridden_true_inv in Hrun as (x & Hin & Hsome).
        apply (overridden_object _ _ _ x); [by rewrite Ho|done|done].
    + destruct (overridden (getTypeDef _) _ _) eqn:Et.
      { apply overridden_true_inv in Et as (x & Hin & Hsome).
        apply (overridden_type _ _ _ x); [by rewrite Ht|done|done]. }
      destruct (providerDefs (_def this)) as [|pd pds] eqn:Hp; simpl in Hrun.
      * destruct (namedObjectDefs (_def this)) as [|od ods] eqn:Ho; simpl in Hrun; [done|].
        injection Hrun as Hrun. apply overridden_true_inv in Hrun as (x & Hin & Hsome).
        apply (overridden_object _ _ _ x); [by rewrite Ho|done|done].
      * destruct (overridden (getProviderDef _) _ _) eqn:Eo.
        { apply overridden_true_inv in Eo as (x & Hin & Hsome).
          apply (overridden_protocol _ _ _ x); [by rewrite Hp|done|done]. }
        destruct (namedObjectDefs (_def this)) as [|od ods] eqn:Ho; simpl in Hrun; [done|].
        injection Hrun as Hrun. apply overridden_true_inv in Hrun as (x & Hin & Hsome).
        apply (overridden_object _ _ _ x); [by rewrite Ho|done|done].
  - simpl.
    destruct (typeDefs (_def this)); simpl; [|done].
    destruct (providerDefs (_def this)); simpl; [|done].
    by destruct (namedObjectDefs (_def this)).
Qed.

Lemma needsUpdate_answers this ancestors o deps depth :
  dependencies (def o) = Some deps ->
  exists b, needsUpdate this ancestors o depth = Ok b.
Proof.
  intros Hdeps. unfold needsUpdate. destruct ancestors; [by eexists|].
  unfold dependenciesOf. rewrite Hdeps. simpl.
  destruct (typeDefs (_def this)); simpl;
    [|destruct (overridden (getTypeDef _) _ _); [by eexists|]];
    (destruct (providerDefs (_def this)); simpl;
     [|destruct (overridden (getProviderDef _) _ _); [by eexists|]]);
    destruct (namedObjectDefs (_def this)); simpl; by eexists.
Qed.

(** X21.  For a scope with a parent and an object whose declaration was
    analysed, [needsUpdate] answers, and answers true exactly when some
    recorded dependency of a kind the definition of the scope declares
    entries of is declared within [depth - 1] hops of that definition. *)
Theorem needsUpdate_true_iff_overridden
  (this : ScopedObjectContext) (ancestors : list ScopedObjectContext)
  (namedObject : NamedObject) (deps : ObjectContextDependency) (depth : nat) :
  ancestors <> [] ->
  dependencies (def namedObject) = Some deps ->
  (needsUpdate this ancestors namedObject (Z.of_nat depth) = Ok true
   <-> Overridden this deps depth) /\
  (needsUpdate this ancestors namedObject (Z.of_nat depth) = Ok false
   <-> ~ Overridden this deps depth).
Proof.
  intros Hanc Hdeps.
  assert (needsUpdate this ancestors namedObject (Z.of_nat depth) = Ok true
          <-> Overridden this deps depth) as Htrue.
  { split; [|by apply needsUpdate_overridden].
    intros Hrun. apply needsUpdate_true_inv in Hrun as (deps' & Hdeps' & Hover).
    congruence. }
  split; [done|].
  destruct (needsUpdate_answers this ancestors namedObject deps (Z.of_nat depth) Hdeps)
    as [[|] Hb]; rewrite Hb in *.
  - split; [done|]. intros Hnot. destruct Hnot. by apply Htrue.
  - split; [|done]. intros _ Hover. apply Htrue in Hover. done.
Qed.

Lemma Overridden_mono this deps d1 d2 :
  (d1 <= d2)%nat -> Overridden this deps d1 -> Overridden this deps d2.
Proof.
  intros Hle [t Hdecl Hin [x Hx]|p Hdecl Hin [x Hx]|o Hdecl Hin [x Hx]].
  - apply (overridden_type _ _ _ t); [done|done|]. exists x.
    rewrite getTypeDef_lookupChain in *.
    eapply lookupChain_mono; [|exact Hx]. lia.
  - apply (overridden_protocol _ _ _ p); [done|done|]. exists x.
    rewrite getProviderDef_lookupChain in *.
    eapply lookupChain_mono; [|exact Hx]. lia.
  - apply (overridden_object _ _ _ o); [done|done|]. exists x.
    rewrite getNamedObjectDef_lookupChain in *.
    eapply lookupChain_mono; [|exact Hx]. lia.
Qed.

(** X22.  An override seen for an object found some hops up is seen for
    the same object found further up: when [needsUpdate] answers true for a
    depth it answers true for every larger depth. *)
Theorem needsUpdate_monotone_in_depth
  (this : ScopedObjectContext) (ancestors : list ScopedObjectContext)
  (namedObject : NamedObject) (depth depth' : nat) :
  (depth <= depth')%nat ->
  needsUpdate this ancestors namedObject (Z.of_nat depth) = Ok true ->
  needsUpdate this ancestors namedObject (Z.of_nat depth') = Ok true.
Proof.
  intros Hle Hrun.
  assert (ancestors <> []) as Hanc.
  { intros ->. simpl in Hrun. done. }
  apply needsUpdate_true_inv in Hrun as (deps & Hdeps & Hover).
  apply (needsUpdate_overridden _ _ _ deps); [done|done|].
  by apply (Overridden_mono _ _ depth).
Qed.

Lemma needsUpdate_true_iff_overridden_witness :
  (needsUpdate applicationScope [globalScope] globalBase (Z.of_nat 1) = Ok true
   <-> Overridden applicationScope baseDependencies 1) /\
  (needsUpdate applicationScope [globalScope] globalBase (Z.of_nat 1) = Ok false
   <-> ~ Overridden applicationScope baseDependencies 1).
Proof.
  apply (needsUpdate_true_iff_overridden applicationScope [globalScope] globalBase
           baseDependencies 1); [discriminate|reflexivity].
Defined.

Lemma needsUpdate_monotone_in_depth_witness :
  needsUpdate applicationScope [globalScope] globalBase (Z.of_nat 5) = Ok true.
Proof.
  apply (needsUpdate_monotone_in_depth applicationScope [globalScope] globalBase 1 5);
    [lia|reflexivity].
Defined.

Section ObjectOverrides.

Variable tryParse : JsValue -> option Uri.

(** X23.  A scope that declares named objects only, no type and no
    resolver, never rebuilds what it inherits from a definition built with
    dependency analysis: the analysis records no named-object dependency, so
    [needsUpdate] answers false for every such object at every depth, and
    [get], on a miss in the own registry followed by a hit on such an object,
    returns it as it is and leaves the store as it was. *)
Theorem named_object_override_never_rebuilds
  (this : ScopedObjectContext) (ancestors : list ScopedObjectContext)
  (parentDefinition : option ScopedObjectContextDef) (typeDefs0 : list TypeDef)
  (providerDefs0 : list ProviderDef) (objectDefs : list NamedObjectDef)
  (d : ScopedObjectContextDef) (found : NamedObject) :
  newScopedObjectContextDef tryParse parentDefinition typeDefs0 providerDefs0 objectDefs
    true = Some (Ok d) ->
  def found ∈ namedObjectDefs d ->
  typeDefs (_def this) = [] ->
  providerDefs (_def this) = [] ->
  (forall depth, needsUpdate this ancestors found depth = Ok false) /\
  (forall objectName st depth,
     registryGet (hd [] (registries st)) objectName = None ->
     firstHit (chainRegistries ancestors (tl (registries st))) objectName 1
       = Some (depth, found) ->
     get tryParse this ancestors objectName st = (Ok (Some found), st)).
Proof.
  intros Hbuilt Hin Ht Hp.
  apply construction_records_no_object_dependency in Hbuilt. simpl in Hbuilt.
  destruct (proj1 (Forall_forall _ _) Hbuilt _ Hin) as (dep & Hdep & Hnone).
  assert (forall depth, needsUpdate this ancestors found depth = Ok false) as Hno.
  { intros depth. unfold needsUpdate. destruct ancestors; [done|].
    rewrite Ht, Hp. simpl. unfold dependenciesOf. rewrite Hdep.
    destruct (negb _); simpl; [by rewrite Hnone|done]. }
  split; [done|]. intros nm st depth Hmiss Hhit.
  rewrite get_cases, Hmiss, Hhit. unfold inherit. by rewrite Hno.
Qed.

End ObjectOverrides.

Lemma named_object_override_never_rebuilds_witness :
  get referenceParse objectOnlyScope [globalScope] "base" (storeView 1 store0)
    = (Ok (Some globalBase), storeView 1 store0).
Proof.
  apply (proj2 (named_object_override_never_rebuilds referenceParse objectOnlyScope
                  [globalScope] None [numberType "global"] [] [baseDecl] globalDef
                  globalBase eq_refl (list_elem_of_here _ _) eq_refl eq_refl))
    with (depth := 1%nat); reflexivity.
Defined.
